(** * Sentry web client: verification of selected client-side behaviours

    A shallow embedding of a handful of functions of the Sentry frontend
    (TypeScript / React) together with the properties stated about them.

    Conventions used throughout:
    - a JavaScript value of type [T | undefined] (or [T | null]) is an
      [option T];
    - a [Map<string, V>] or a plain object used as a dictionary is a
      [gmap string V], a [Set<string>] is a [gset string];
    - an object whose identity matters (it is mutated in place, or
      compared with [===]) lives behind a reference;
    - effectful code is written in explicit state-passing style: the state
      carries the remote server (an abstract [World] answering requests) and
      a chronological log of the observable calls the code makes;
    - a rejected promise is the [inl] branch of a sum;
    - a string that the code measures or cuts ([length], [substr]) is the
      list of its UTF-16 code units; strings that are only compared and
      concatenated are [string]s;
    - imported helpers whose source is not part of the embedded files
      ([t], [parseLinkHeader], the [IssueSortOptions] enum) are section
      variables. *)

From stdpp Require Import gmap strings list fin_maps pretty sorting.

#[local] Set Warnings "-clear-no-such-hyp".

(** ** JavaScript helpers *)

Module Js.

(** Truthiness of a value of type [string | null | undefined]. *)
Definition truthy (v : option string) : bool :=
  match v with
  | Some s => negb (String.eqb s "")
  | None => false
  end.

(** [a?.f], and [a && f(a)] where [a] is an object or undefined. *)
Definition and_then {A B} (a : option A) (f : A → option B) : option B :=
  match a with
  | Some x => f x
  | None => None
  end.

(** [a ?? d] *)
Definition nullish {A} (a : option A) (d : A) : A :=
  match a with
  | Some x => x
  | None => d
  end.

End Js.

(** ** app/actionCreators/performance *)

Module Performance.

(** type TransactionNames = Set<string>;
    type KeyTransactionPerProject = Map<string, TransactionNames>;
    type TeamKeyTransactions = Map<string, KeyTransactionPerProject>; *)
Abbreviation TransactionNames := (gset string).
Abbreviation KeyTransactionPerProject := (gmap string TransactionNames).
Abbreviation TeamKeyTransactions := (gmap string KeyTransactionPerProject).

(** One element of the [keyed] array of a response row. *)
Record KeyedEntry := { project_id : string; transaction : string }.

(** One row of the response body of [key-transactions-list]. *)
Record TeamEntry := { team : string; keyed : list KeyedEntry }.

(** One relation of a parsed Link header. *)
Module Link.
Record t := { href : string; results : option bool; cursor : option string }.
End Link.

(** The part of the XMLHttpRequest the code looks at: its response headers. *)
Record XHR := { responseHeaders : gmap string string }.

Definition getResponseHeader (x : XHR) (name : string) : option string :=
  responseHeaders x !! name.

(** A resolved request with [includeAllArgs]: [[data, textStatus, xhr]]. *)
Record Response := { data : list TeamEntry; xhr : option XHR }.

Record ResponseJSON :=
  { detail : option string; non_field_errors : option (list string) }.

(** The value a request promise rejects with. *)
Record RequestError := { status : nat; responseJSON : option ResponseJSON }.

Inductive Method := GET | POST | DELETE.

Inductive Param :=
| PUndefined
| PString (s : string)
| PStrings (l : list string).

(** The options of a request; [body] is its [data] field. *)
Record RequestOptions :=
  { method : Method;
    includeAllArgs : bool;
    query : list (string * Param);
    body : list (string * Param) }.

(** Observable calls, in the order they are made. *)
Inductive Event :=
| RequestPromise (url : string) (opts : RequestOptions) (outcome : RequestError + Response)
| AddErrorMessage (msg : string)
| AddLoadingMessage (msg : string)
| ClearIndicators.

Definition isRequest (e : Event) : bool :=
  match e with RequestPromise _ _ _ => true | _ => false end.

Definition isFailedRequest (e : Event) : bool :=
  match e with RequestPromise _ _ (inl _) => true | _ => false end.

Section Actions.
Context {World : Type}.

(** The API client: the server state answers a request and moves on. *)
Definition Client := World → string → RequestOptions → World * (RequestError + Response).

Record St := { world : World; log : list Event }.

(** Computations that may reject. *)
Definition M (A : Type) := St → St * (RequestError + A).

Definition ret {A} (a : A) : M A := λ s, (s, inr a).
Definition throw {A} (e : RequestError) : M A := λ s, (s, inl e).
Definition bind {A B} (m : M A) (k : A → M B) : M B :=
  λ s, match m s with
       | (s', inr a) => k a s'
       | (s', inl e) => (s', inl e)
       end.
Definition try_catch {A} (m : M A) (h : RequestError → M A) : M A :=
  λ s, match m s with
       | (s', inr a) => (s', inr a)
       | (s', inl e) => h e s'
       end.
Definition emit (e : Event) : M unit :=
  λ s, ({| world := world s; log := log s ++ [e] |}, inr tt).

#[global] Instance M_ret : MRet M := @ret.
#[global] Instance M_bind : MBind M := λ A B k m, bind m k.

(** [api.requestPromise(url, opts)], awaited. *)
Definition requestPromise (api : Client) (url : string) (opts : RequestOptions) : M Response :=
  λ s, let '(w, r) := api (world s) url opts in
       ({| world := w; log := log s ++ [RequestPromise url opts r] |}, r).

Definition addErrorMessage (msg : string) : M unit := emit (AddErrorMessage msg).
Definition addLoadingMessage (msg : string) : M unit := emit (AddLoadingMessage msg).
Definition clearIndicators : M unit := emit ClearIndicators.

(** Imported helpers that are not part of this module: the localisation
    function [t] and [parseLinkHeader]. *)
Variable t : string → string.
Variable parseLinkHeader : string → gmap string Link.t.

(** The [keyed.reduce(...)] callback and the reduction from [new Map()]. *)
Definition keyed_step (kts : KeyTransactionPerProject) (e : KeyedEntry)
  : KeyTransactionPerProject :=
  let kts1 :=
    if decide (is_Some (kts !! project_id e)) then kts
    else <[project_id e := ∅]> kts in
  alter (λ names, names ∪ {[transaction e]}) (project_id e) kts1.

Definition keyed_reduce (k : list KeyedEntry) : KeyTransactionPerProject :=
  foldl keyed_step ∅ k.

(** [data.forEach(({team, keyed}) => teamKeyTransactions.set(team, ...))] *)
Definition data_forEach (d : list TeamEntry)
    (teamKeyTransactions : TeamKeyTransactions)
  : TeamKeyTransactions :=
  foldl (λ m e, <[team e := keyed_reduce (keyed e)]> m) teamKeyTransactions d.

Definition teams_param (teams : string + list string) : Param :=
  match teams with inl s => PString s | inr l => PStrings l end.

Definition cursor_param (c : option string) : Param :=
  match c with Some s => PString s | None => PUndefined end.

Definition list_url (orgSlug : string) : string :=
  "/organizations/" +:+ orgSlug +:+ "/key-transactions-list/".

Definition list_options (cursor : option string) (teams : string + list string)
  : RequestOptions :=
  {| method := GET;
     includeAllArgs := true;
     query := [("cursor", cursor_param cursor); ("team", teams_param teams)];
     body := [] |}.

(** [xhr && xhr.getResponseHeader('Link')] *)
Definition pageLinks (r : Response) : option string :=
  Js.and_then (xhr r) (λ x, getResponseHeader x "Link").

(** The values assigned to [hasMore] and [cursor] after a response. *)
Definition next_hasMore (r : Response) : bool :=
  if Js.truthy (pageLinks r) then
    let paginationObject := parseLinkHeader (Js.nullish (pageLinks r) "") in
    Js.nullish (Js.and_then (paginationObject !! "next") Link.results) false
  else false.

Definition next_cursor (cursor : option string) (r : Response) : option string :=
  if Js.truthy (pageLinks r) then
    let paginationObject := parseLinkHeader (Js.nullish (pageLinks r) "") in
    Js.and_then (paginationObject !! "next") Link.cursor
  else cursor.

Definition fetch_error_message (err : RequestError) : string :=
  Js.nullish (Js.and_then (responseJSON err) detail)
             (t "Error fetching team key transactions").

(** One iteration of the [while (hasMore)] loop: the [try] block and
    its [catch].  Yields the updated map, [hasMore] and [cursor]. *)
Definition fetch_iteration (api : Client) (orgSlug : string)
    (teams : string + list string) (cursor : option string)
    (teamKeyTransactions : TeamKeyTransactions)
  : M (TeamKeyTransactions * bool * option string) :=
  try_catch
    (r ← requestPromise api (list_url orgSlug) (list_options cursor teams);
     ret (data_forEach (data r) teamKeyTransactions,
          next_hasMore r, next_cursor cursor r))
    (λ err, addErrorMessage (fetch_error_message err) ;; throw err).

(** The loop.  [fuel] bounds the number of iterations; [None] means
    the bound was reached while [hasMore] was still true. *)
Fixpoint fetch_loop (fuel : nat) (api : Client) (orgSlug : string)
    (teams : string + list string) (cursor : option string)
    (teamKeyTransactions : TeamKeyTransactions)
    (s : St)
  : option (St * (RequestError + TeamKeyTransactions)) :=
  match fuel with
  | O => None
  | S fuel' =>
      match fetch_iteration api orgSlug teams cursor teamKeyTransactions s with
      | (s', inl err) => Some (s', inl err)
      | (s', inr (tkt, hasMore, cursor')) =>
          if hasMore then fetch_loop fuel' api orgSlug teams cursor' tkt s'
          else Some (s', inr tkt)
      end
  end.

Definition fetchTeamKeyTransactions (fuel : nat) (api : Client) (orgSlug : string)
    (teams : string + list string) (s : St)
  : option (St * (RequestError + TeamKeyTransactions)) :=
  fetch_loop fuel api orgSlug teams None ∅ s.

(** toggleKeyTransaction *)

Definition toggle_url (orgId : string) : string :=
  "/organizations/" +:+ orgId +:+ "/key-transactions/".

Definition toggle_options (isKeyTransaction : bool) (projects : list Z)
    (transactionName : string) (teamIds : option (list string)) : RequestOptions :=
  {| method := if isKeyTransaction then DELETE else POST;
     includeAllArgs := false;
     query := [("project", PStrings (map pretty projects))];
     body := [("transaction", PString transactionName);
              ("team", match teamIds with
                       | Some l => PStrings l
                       | None => PUndefined
                       end)] |}.

(** The message chosen by the [promise.catch] handler. *)
Definition toggle_error_message (response : RequestError) : string :=
  match Js.and_then (responseJSON response) non_field_errors with
  | Some (first :: _) =>
      if Js.truthy (Some first) then first
      else t "Unable to update key transaction"
  | _ => t "Unable to update key transaction"
  end.

(** The returned promise is the request promise itself: the [then] and
    [catch] handlers hang off it and do not change how it settles. *)
Definition toggleKeyTransaction (api : Client) (isKeyTransaction : bool)
    (orgId : string) (projects : list Z) (transactionName : string)
    (teamIds : option (list string)) : M Response :=
  addLoadingMessage (t "Saving changes…") ;;
  try_catch
    (r ← requestPromise api (toggle_url orgId)
           (toggle_options isKeyTransaction projects transactionName teamIds);
     clearIndicators ;; ret r)
    (λ response, addErrorMessage (toggle_error_message response) ;; throw response).

End Actions.

(** *** Runs of the pagination loop

    The vocabulary used to describe what the server answers to the
    requests of [fetchTeamKeyTransactions]. *)

Section Runs.
Context {World : Type}.
Variable parseLinkHeader : string → gmap string Link.t.
Variable api : @Client World.
Variable orgSlug : string.
Variable teams : string + list string.

(** The [next] relation of the Link header a response carries, if any. *)
Definition next_relation (r : Response) : option Link.t :=
  if Js.truthy (pageLinks r)
  then parseLinkHeader (Js.nullish (pageLinks r) "") !! "next"
  else None.

(** The response asks for another page: it has a Link header whose
    [next] relation has [results="true"]. *)
Definition continues (r : Response) : Prop :=
  next_relation r ≫= Link.results = Some true.

(** The response ends the pagination: no Link header, or a [next]
    relation whose results flag is not true. *)
Definition stops (r : Response) : Prop :=
  Js.truthy (pageLinks r) = false ∨ next_relation r ≫= Link.results ≠ Some true.

(** [more_pages w c ps w' c']: starting from server state [w] with cursor
    [c], the requests the loop makes are answered by the successful
    responses [ps], each of which asks for another page; the server is
    then in state [w'] and the loop's cursor is [c']. *)
Inductive more_pages : World → option string → list Response → World → option string → Prop :=
| more_pages_nil w c : more_pages w c [] w c
| more_pages_cons w c r w1 ps w' c' :
    api w (list_url orgSlug) (list_options c teams) = (w1, inr r) →
    continues r →
    more_pages w1 (next_relation r ≫= Link.cursor) ps w' c' →
    more_pages w c (r :: ps) w' c'.

(** The request events of a run of successful pages. *)
Fixpoint page_requests (c : option string) (rs : list Response) : list Event :=
  match rs with
  | [] => []
  | r :: rs' =>
      RequestPromise (list_url orgSlug) (list_options c teams) (inr r)
        :: page_requests (next_relation r ≫= Link.cursor) rs'
  end.

(** The map accumulated over a run of pages. *)
Definition accumulate (rs : list Response) (m : TeamKeyTransactions) : TeamKeyTransactions :=
  foldl (λ acc r, data_forEach (data r) acc) m rs.

End Runs.

End Performance.

(** ** A scripted server used to run the code on concrete inputs *)

Module Mock.
Import Performance.

(** The test locale: messages are left untranslated. *)
Definition t (s : string) : string := s.

(** A header table standing in for [parseLinkHeader]. *)
Definition parseLinkHeader (h : string) : gmap string Link.t :=
  if String.eqb h "next-page-2" then
    {[ "next" := {| Link.href := "/page-2"; Link.results := Some true;
                    Link.cursor := Some "0:100:0" |} ]}
  else if String.eqb h "no-more" then
    {[ "next" := {| Link.href := "/page-3"; Link.results := Some false;
                    Link.cursor := Some "0:200:0" |} ]}
  else ∅.

Definition with_link (h : string) : option XHR :=
  Some {| responseHeaders := {[ "Link" := h ]} |}.

Definition page1 : Response :=
  {| data := [ {| team := "1"; keyed := [ {| project_id := "10"; transaction := "/a" |};
                                          {| project_id := "10"; transaction := "/b" |} ] |};
               {| team := "2"; keyed := [ {| project_id := "11"; transaction := "/c" |} ] |} ];
     xhr := with_link "next-page-2" |}.

Definition page2 : Response :=
  {| data := [ {| team := "1"; keyed := [ {| project_id := "12"; transaction := "/d" |} ] |} ];
     xhr := with_link "no-more" |}.

Definition server_error : RequestError :=
  {| status := 500; responseJSON := Some {| detail := Some "Internal error";
                                            non_field_errors := None |} |}.

Definition plain_error : RequestError := {| status := 0; responseJSON := None |}.

(** The server state is the number of requests answered so far. *)
Definition two_pages : @Client nat :=
  λ w _ _, (S w, match w with 0 => inr page1 | _ => inr page2 end).

Definition fails_on_second : @Client nat :=
  λ w _ _, (S w, match w with 0 => inr page1 | _ => inl server_error end).

Definition always_fails : @Client nat :=
  λ w _ _, (S w, inl plain_error).

Definition start : @St nat := {| world := 0; log := [] |}.

(** A server that always has one more page. *)
Definition endless : @Client nat := λ w _ _, (S w, inr page1).

#[global] Instance Method_eq_dec : EqDecision Method.
Proof. solve_decision. Defined.

#[global] Instance Param_eq_dec : EqDecision Param.
Proof. solve_decision. Defined.

#[global] Instance RequestOptions_eq_dec : EqDecision RequestOptions.
Proof. solve_decision. Defined.

(** A first page on which team 3 has no key transaction. *)
Definition first_page : Response :=
  {| data := [ {| team := "1"; keyed := [ {| project_id := "10"; transaction := "/a" |};
                                          {| project_id := "10"; transaction := "/b" |} ] |};
               {| team := "3"; keyed := [] |};
               {| team := "2"; keyed := [ {| project_id := "11"; transaction := "/c" |} ] |} ];
     xhr := with_link "next-page-2" |}.

(** A server that answers by what it is asked: the first page to a GET
    of the list without a cursor, the second page to the cursor that the
    first page's Link header names, and an error to anything else. *)
Definition by_cursor : @Client nat :=
  λ w url opts,
    (S w,
     let asks cursor :=
       bool_decide (url = "/organizations/acme/key-transactions-list/")
       && bool_decide (opts = {| method := GET;
                                 includeAllArgs := true;
                                 query := [("cursor", cursor);
                                           ("team", PStrings ["1"; "2"])];
                                 body := [] |}) in
     if asks PUndefined then inr first_page
     else if asks (PString "0:100:0") then inr page2
     else inl plain_error).

End Mock.

(** ** app/components/performance/teamKeyTransactionsManager *)

Module TeamKeyTransactionsManager.
Import Performance.

Inductive Action := key | unkey.

Record SelectionBase := { action : Action; project : Z; transactionName : string }.

(** [MyTeamSelection | TeamIdSelection], discriminated by [type]. *)
Inductive TeamSelection :=
| MyTeamSelection (base : SelectionBase)
| TeamIdSelection (base : SelectionBase) (teamId : string).

Definition selection_base (selection : TeamSelection) : SelectionBase :=
  match selection with
  | MyTeamSelection base => base
  | TeamIdSelection base _ => base
  end.

Definition isMyTeamSelection (selection : TeamSelection) : bool :=
  match selection with
  | MyTeamSelection _ => true
  | TeamIdSelection _ _ => false
  end.

(** The fields of [Team] and [Organization] the component reads. *)
Module Team.
Record t := { id : string; isMember : bool }.
End Team.

Record Organization := { slug : string }.

(** [String(project)] for an integer project id. *)
Definition String_ (project : Z) : string := pretty project.

(** The body of [for (const teamId of teamIds)]: the nested Map and Set
    objects are updated in place. *)
Definition toggle_team (isKeyTransaction : bool) (project : Z) (transactionName : string)
    (newTeamKeyTransactions : TeamKeyTransactions) (teamId : string) : TeamKeyTransactions :=
  let m1 :=
    if decide (is_Some (newTeamKeyTransactions !! teamId)) then newTeamKeyTransactions
    else <[teamId := ∅]> newTeamKeyTransactions in
  alter (λ team : KeyTransactionPerProject,
           let team1 :=
             if decide (is_Some (team !! String_ project)) then team
             else <[String_ project := ∅]> team in
           alter (λ transactionNames : TransactionNames,
                    if isKeyTransaction then transactionNames ∖ {[transactionName]}
                    else transactionNames ∪ {[transactionName]})
                 (String_ project) team1)
        teamId m1.

Definition toggle_teams (isKeyTransaction : bool) (project : Z) (transactionName : string)
    (teamIds : list string) (m : TeamKeyTransactions) : TeamKeyTransactions :=
  foldl (toggle_team isKeyTransaction project transactionName) m teamIds.

(** The per-team count computed by [getCounts] from one Map object. *)
Definition count_transactions (keyTransactions : KeyTransactionPerProject) : nat :=
  map_fold (λ _ (transactionNames : TransactionNames) count, count + size transactionNames)
           0 keyTransactions.

(** The transaction names a Map object records for a team and project. *)
Definition names_at (m : TeamKeyTransactions) (teamId project' : string) : gset string :=
  default ∅ (default ∅ (m !! teamId) !! project').

Section Provider.
Context {World : Type}.
Variable t : string → string.
Variable parseLinkHeader : string → gmap string Link.t.

Record Props :=
  { api : @Client World;
    organization : Organization;
    teams : list Team.t;
    selectedTeams : list string }.

(** [teamKeyTransactions] holds a reference to a Map object on the heap;
    [keyFetchID] holds a symbol. *)
Record State :=
  { keyFetchID : option nat;
    isLoading : bool;
    error : option string;
    teamKeyTransactions : nat }.

(** A mounted component: its state, the Map objects it can reach, the
    next unused reference, and the outside world. *)
Record Instance :=
  { state : State;
    heap : gmap nat TeamKeyTransactions;
    fresh : nat;
    io : @St World }.

(** The class field initialiser: [teamKeyTransactions: new Map()]. *)
Definition mount (io0 : @St World) : Instance :=
  {| state := {| keyFetchID := None; isLoading := true; error := None;
                 teamKeyTransactions := 0 |};
     heap := {[ 0 := ∅ ]};
     fresh := 1;
     io := io0 |}.

(** A new object (or symbol) gets the next unused reference. *)
Definition new_Map (contents : TeamKeyTransactions) (c : Instance) : nat * Instance :=
  (fresh c,
   {| state := state c; heap := <[fresh c := contents]> (heap c);
      fresh := S (fresh c); io := io c |}).

Definition Symbol (c : Instance) : nat * Instance :=
  (fresh c, {| state := state c; heap := heap c; fresh := S (fresh c); io := io c |}).

Definition setState (f : State → State) (c : Instance) : Instance :=
  {| state := f (state c); heap := heap c; fresh := fresh c; io := io c |}.

Definition with_io (io' : @St World) (c : Instance) : Instance :=
  {| state := state c; heap := heap c; fresh := fresh c; io := io' |}.

(** In-place update of the Map object behind a reference. *)
Definition mutate (ref : nat) (f : TeamKeyTransactions → TeamKeyTransactions)
    (c : Instance) : Instance :=
  {| state := state c; heap := alter f ref (heap c); fresh := fresh c; io := io c |}.

(** The Map object the state currently points to. *)
Definition current (c : Instance) : TeamKeyTransactions :=
  default ∅ (heap c !! teamKeyTransactions (state c)).

Definition fetchData (fuel : nat) (props : Props) (c : Instance) : option Instance :=
  let '(keyFetchID', c) := Symbol c in
  let c := setState (λ st, {| keyFetchID := Some keyFetchID'; isLoading := true;
                              error := error st;
                              teamKeyTransactions := teamKeyTransactions st |}) c in
  let '(emptyMap, c) := new_Map ∅ c in
  match fetchTeamKeyTransactions t parseLinkHeader fuel (api props)
          (slug (organization props)) (inr (selectedTeams props)) (io c) with
  | None => None
  | Some (io', inr fetched) =>
      let '(teamKeyTransactions', c) := new_Map fetched (with_io io' c) in
      Some (setState (λ _, {| keyFetchID := None; isLoading := false; error := None;
                              teamKeyTransactions := teamKeyTransactions' |}) c)
  | Some (io', inl err) =>
      Some (setState (λ _, {| keyFetchID := None; isLoading := false;
                              error := Some (fetch_error_message t err);
                              teamKeyTransactions := emptyMap |}) (with_io io' c))
  end.

Definition getCounts (c : Instance) : gmap string nat :=
  count_transactions <$> current c.

Definition getKeyedTeams (c : Instance) (project' : string) (transactionName' : string)
  : gset string :=
  dom (filter (λ entry : string * KeyTransactionPerProject,
                 transactionName' ∈ default ∅ (entry.2 !! project'))
              (current c)).

Definition toggleKeyTransactionForMyTeams (props : Props) : list string :=
  Team.id <$> filter (λ team, Team.isMember team = true) (teams props).

Definition toggleKeyTransactionForTeam (teamId : string) : list string := [teamId].

Definition selection_teamIds (props : Props) (selection : TeamSelection) : list string :=
  match selection with
  | MyTeamSelection _ => toggleKeyTransactionForMyTeams props
  | TeamIdSelection _ teamId => toggleKeyTransactionForTeam teamId
  end.

Definition isKeyTransaction (selection : TeamSelection) : bool :=
  match action (selection_base selection) with unkey => true | key => false end.

(** The synchronous part of [handleToggleKeyTransaction], up to the call
    of [toggleKeyTransaction]: [newTeamKeyTransactions] is the very object
    [this.state.teamKeyTransactions] refers to. *)
Definition toggle_in_place (props : Props) (selection : TeamSelection) (c : Instance)
  : Instance :=
  let newTeamKeyTransactions := teamKeyTransactions (state c) in
  mutate newTeamKeyTransactions
         (toggle_teams (isKeyTransaction selection)
                       (project (selection_base selection))
                       (transactionName (selection_base selection))
                       (selection_teamIds props selection))
         c.

Definition handleToggleKeyTransaction (props : Props) (selection : TeamSelection)
    (c : Instance) : Instance :=
  let teamKeyTransactions' := teamKeyTransactions (state c) in
  let c := toggle_in_place props selection c in
  match toggleKeyTransaction t (api props) (isKeyTransaction selection)
          (slug (organization props)) [project (selection_base selection)]
          (transactionName (selection_base selection))
          (Some (selection_teamIds props selection)) (io c) with
  | (io', inr _) =>
      setState (λ st, {| keyFetchID := keyFetchID st; isLoading := isLoading st;
                         error := error st;
                         teamKeyTransactions := teamKeyTransactions' |}) (with_io io' c)
  | (io', inl err) =>
      setState (λ st, {| keyFetchID := keyFetchID st; isLoading := isLoading st;
                         error := Js.and_then (responseJSON err) detail;
                         teamKeyTransactions := teamKeyTransactions st |}) (with_io io' c)
  end.

(** [componentDidMount] *)
Definition componentDidMount (fuel : nat) (props : Props) (c : Instance) : option Instance :=
  fetchData fuel props c.

(** The test [componentDidUpdate] makes on the selected teams.
    [this.props.selectedTeams[i]] is undefined past the end of the array. *)
Definition selectedTeamsChanged (prevSelectedTeams selectedTeams' : list string) : bool :=
  negb (length prevSelectedTeams =? length selectedTeams')
  || forallb id (imap (λ i teamId, bool_decide (selectedTeams' !! i ≠ Some teamId))
                      prevSelectedTeams).

Definition orgSlugChanged (prevProps props : Props) : bool :=
  negb (String.eqb (slug (organization prevProps)) (slug (organization props))).

Definition componentDidUpdate (fuel : nat) (prevProps props : Props) (c : Instance)
  : option Instance :=
  if orgSlugChanged prevProps props
     || selectedTeamsChanged (selectedTeams prevProps) (selectedTeams props)
  then fetchData fuel props c
  else Some c.

End Provider.

End TeamKeyTransactionsManager.

(** A provider on the scripted server. *)

Module MockProvider.
Import Performance TeamKeyTransactionsManager.

Definition failing : @Props nat :=
  {| api := Mock.always_fails;
     organization := {| slug := "acme" |};
     teams := [ {| Team.id := "1"; Team.isMember := true |};
                {| Team.id := "2"; Team.isMember := false |} ];
     selectedTeams := ["1"; "2"] |}.

Definition key_for_team_1 : TeamSelection :=
  TeamIdSelection {| action := key; project := 10; transactionName := "/a" |} "1".

Definition mounted : @Instance nat := mount Mock.start.

(** A mounted provider that has loaded one key transaction for team 1. *)
Definition loaded : @Instance nat :=
  {| state := {| keyFetchID := None; isLoading := false; error := None;
                 teamKeyTransactions := 1 |};
     heap := {[ 0 := ∅; 1 := {[ "1" := {[ "10" := {[ "/a" ]} ]} ]} ]};
     fresh := 2;
     io := Mock.start |}.

Definition key_for_my_teams : TeamSelection :=
  MyTeamSelection {| action := key; project := 10; transactionName := "/b" |}.

Definition unkey_for_team_1 : TeamSelection :=
  TeamIdSelection {| action := unkey; project := 10; transactionName := "/a" |} "1".

Definition working : @Props nat :=
  {| api := Mock.two_pages;
     organization := {| slug := "acme" |};
     teams := [ {| Team.id := "1"; Team.isMember := true |};
                {| Team.id := "2"; Team.isMember := false |} ];
     selectedTeams := ["1"; "2"] |}.

(** The same provider after the selected teams changed from 1, 2 to 1, 3. *)
Definition reselected : @Props nat :=
  {| api := Mock.two_pages;
     organization := {| slug := "acme" |};
     teams := teams working;
     selectedTeams := ["1"; "3"] |}.

End MockProvider.

(** ** app/components/charts/eventsChart: the legend handler of [Chart] *)

Module EventsChart.

(** The one prop the handler reads; [None] when the prop is not passed. *)
Record ChartProps := { disableableSeries : option (list string) }.

Record State := { seriesSelection : gmap string bool; forceUpdate : bool }.

(** The event ECharts passes to [legendselectchanged]. *)
Record LegendChange := { selected : gmap string bool }.

(** [Array.prototype.includes] on an array of strings. *)
Definition includes (l : list string) (x : string) : bool := bool_decide (x ∈ l).

(** [Object.keys(o)] *)
Definition Object_keys {V} (o : gmap string V) : list string := (map_to_list o).*1.

Definition disableable (props : ChartProps) (key : string) : bool :=
  let disableableSeries' := default [] (disableableSeries props) in
  includes ["Releases"; "Other"] key || includes disableableSeries' key.

(** The callback of [Object.keys(selected).reduce(..., {})].  [key] ranges
    over the keys of [selected], so [selected[key]] is defined. *)
Definition reduce_step (props : ChartProps) (selected' : gmap string bool)
    (state : gmap string bool) (key : string) : gmap string bool :=
  <[key := if disableable props key then selected' !!! key else true]> state.

Definition new_seriesSelection (props : ChartProps) (legendChange : LegendChange)
  : gmap string bool :=
  foldl (reduce_step props (selected legendChange)) ∅ (Object_keys (selected legendChange)).

(** The successive states: after [setState({seriesSelection, forceUpdate:
    true}, callback)] and after the callback's [setState({forceUpdate:
    false})]. *)
Definition handleLegendSelectChanged (props : ChartProps) (legendChange : LegendChange)
    (st : State) : State * State :=
  let seriesSelection' := new_seriesSelection props legendChange in
  ({| seriesSelection := seriesSelection'; forceUpdate := true |},
   {| seriesSelection := seriesSelection'; forceUpdate := false |}).

(** *** [shouldComponentUpdate] and the legend built by [render] *)

(** A prop of type [T | null | undefined]: [isEqual] tells the two empty
    values apart. *)
Inductive Nullable (A : Type) :=
| Undefined
| Null
| Value (a : A).

Arguments Undefined {A}.
Arguments Null {A}.
Arguments Value {A} a.

#[global] Instance Nullable_eq_dec {A} `{EqDecision A} : EqDecision (Nullable A).
Proof. solve_decision. Defined.

(** lodash [isEqual]: structural equality. *)
Definition isEqual {A} `{EqDecision A} (a b : A) : bool := bool_decide (a = b).

Section Update.
Context {Series TableData : Type} `{EqDecision Series} `{EqDecision TableData}.

(** [series.markLine.data.length], when [series.markLine?.data] is there. *)
Variable markLineData : Series → option nat.

(** Imported from [app/components/charts/utils] and [app/locale]. *)
Variable RELEASE_LINES_THRESHOLD : nat.
Variable t : string → string.

(** The props that [shouldComponentUpdate] and the legend read. *)
Record DataProps :=
  { reloading : bool;
    timeseriesData : option (list Series);
    releaseSeries : option (list Series);
    previousTimeseriesData : Nullable (list Series);
    tableData : list TableData }.

Definition shouldComponentUpdate (props nextProps : DataProps) (state nextState : State)
  : bool :=
  if forceUpdate nextState then true
  else if negb (isEqual (seriesSelection state) (seriesSelection nextState)) then true
  else if reloading nextProps || negb (bool_decide (is_Some (timeseriesData nextProps)))
  then false
  else if isEqual (timeseriesData props) (timeseriesData nextProps)
          && isEqual (releaseSeries props) (releaseSeries nextProps)
          && isEqual (previousTimeseriesData props) (previousTimeseriesData nextProps)
          && isEqual (tableData props) (tableData nextProps)
  then false
  else true.

(** [hideReleasesByDefault] in [render]. *)
Definition hideReleasesByDefault (props : DataProps) : bool :=
  match releaseSeries props with
  | Some releaseSeries' =>
      match head releaseSeries' ≫= markLineData with
      | Some lines => bool_decide (RELEASE_LINES_THRESHOLD ≤ lines)
      | None => false
      end
  | None => false
  end.

(** The [selected] entry of the legend. *)
Definition legend_selected (props : DataProps) (st : State) : gmap string bool :=
  match releaseSeries props with
  | None => seriesSelection st
  | Some _ =>
      if bool_decide (length (Object_keys (seriesSelection st)) = 0)
         && hideReleasesByDefault props
      then {[ t "Releases" := false ]}
      else seriesSelection st
  end.

End Update.

(** *** The series names [EventsChart.render] derives from [yAxis] *)

(** A JavaScript string as the sequence of its UTF-16 code units: that
    is what [length] counts and what [substr] cuts. *)
Definition JsString : Type := list N.

(** The code units of a literal written in ASCII. *)
Definition code_units (literal : string) : JsString :=
  Ascii.N_of_ascii <$> String.list_ascii_of_string literal.

(** Truthiness of a string: it is not empty. *)
Definition nonempty (s : JsString) : bool :=
  match s with [] => false | _ :: _ => true end.

(** [s.substr(start, length)] for [start] and [length] in range. *)
Definition substr (s : JsString) (start length' : nat) : JsString :=
  take length' (drop start s).

Section Names.
(** Imported from [app/utils/discover/fields]. *)
Variable isEquation : JsString → bool.
Variable getEquation : JsString → JsString.

(** The callback of [yAxisArray.map(...)]. *)
Definition yAxisSeriesName (name : JsString) : JsString :=
  let yAxisLabel :=
    if nonempty name && isEquation name then getEquation name else name in
  if nonempty yAxisLabel && (60 <? length yAxisLabel)
  then substr yAxisLabel 0 60 ++ code_units "..."
  else yAxisLabel.

End Names.

End EventsChart.

Module MockChart.
Import EventsChart.

Definition props : ChartProps := {| disableableSeries := Some ["p50()"] |}.

(** The user switched three series off in the legend. *)
Definition all_off : LegendChange :=
  {| selected := {[ "Releases" := false; "p50()" := false; "count()" := false ]} |}.

Definition before : State := {| seriesSelection := ∅; forceUpdate := false |}.

(** Release series are described by their number of release lines. *)
Definition many_releases : @DataProps nat nat :=
  {| reloading := false;
     timeseriesData := Some [0];
     releaseSeries := Some [250];
     previousTimeseriesData := Null;
     tableData := [] |}.

Definition few_releases : @DataProps nat nat :=
  {| reloading := false;
     timeseriesData := Some [0];
     releaseSeries := Some [3; 250];
     previousTimeseriesData := Null;
     tableData := [] |}.

End MockChart.

(** ** app/views/issueList/createSavedSearchModal *)

Module CreateSavedSearchModal.

(** The members of the [IssueSortOptions] enum the modal uses.  The enum
    is declared in [./utils]; its string values are taken as given. *)
Record IssueSortOptions :=
  { DATE : string; NEW : string; FREQ : string;
    PRIORITY : string; USER : string; TREND : string }.

(** [organization?.features?.includes(...)] reads these fields. *)
Record Organization := { slug : string; features : option (list string) }.

(** The data the form submits. *)
Record FormData := { name : string; query : string; sort : option string }.

Record State := { isSaving : bool; error : option string }.

(** The calls the submit handler makes. *)
Inductive Call :=
| PreventDefault
| AddLoadingMessage (msg : string)
| CreateSavedSearch (orgSlug name' query' sort' : string)
| CloseModal
| ClearIndicators
| OnSubmitSuccess (data : FormData)
| OnSubmitError (error' : string).

Section Modal.
Variable options : IssueSortOptions.
Variable t : string → string.

Definition DEFAULT_SORT_OPTIONS : list string :=
  [DATE options; NEW options; FREQ options; PRIORITY options; USER options].

Definition sortOptions (organization : option Organization) : list string :=
  let options' := DEFAULT_SORT_OPTIONS in
  if default false
       ((λ fs, bool_decide ("issue-list-trend-sort" ∈ fs)) <$> (organization ≫= features))
  then options' ++ [TREND options]
  else options'.

(** [Array.prototype.find] with the predicate [option => option === sort]. *)
Definition find_sort (l : list string) (sort' : option string) : option string :=
  List.find (λ option', bool_decide (Some option' = sort')) l.

(** Handle "date added" sort not being available for saved searches. *)
Definition validateSortOption (organization : option Organization) (sort' : option string)
  : string :=
  if Js.truthy (find_sort (sortOptions organization) sort')
  then default "" sort'
  else DATE options.

(** [handleSubmit], given how the [createSavedSearch] request settles.
    Returns the calls made, in order, and the final state. *)
Definition handleSubmit (organization : Organization) (data : FormData)
    (outcome : Performance.RequestError + unit) (st : State) : list Call * State :=
  let sort' := validateSortOption (Some organization) (sort data) in
  let before :=
    [PreventDefault; AddLoadingMessage (t "Saving Changes");
     CreateSavedSearch (slug organization) (name data) (query data) sort'] in
  match outcome with
  | inr _ =>
      (before ++ [CloseModal; ClearIndicators; OnSubmitSuccess data],
       {| isSaving := false; error := None |})
  | inl err =>
      let detail' := Js.and_then (Performance.responseJSON err) Performance.detail in
      let error' :=
        if Js.truthy detail' then default "" detail'
        else t "Unable to save your changes." in
      (before ++ [ClearIndicators; OnSubmitError error'],
       {| isSaving := false; error := Some error' |})
  end.

(** The [initialData] that [render] gives the form, from the [query] and
    [sort] props. *)
Definition initialData (organization : Organization) (query' : string)
    (sort' : option string) : FormData :=
  {| name := "";
     query := query';
     sort := Some (validateSortOption (Some organization) sort') |}.

(** *** What the form can hold

    [Form], [TextField] and [SelectField] are imported from
    [app/views/settings/components/forms].  What [render] passes them
    fixes the data the form can submit: it starts from [initialData], the
    two text fields take any string, and the select field, which is not
    clearable, takes the value of one of the options it is given, the
    values of [sortOptions()]. *)
Inductive FormEdit :=
| TypeName (value : string)
| TypeQuery (value : string)
| SelectSort (value : string).

Definition edit (data : FormData) (e : FormEdit) : FormData :=
  match e with
  | TypeName value => {| name := value; query := query data; sort := sort data |}
  | TypeQuery value => {| name := name data; query := value; sort := sort data |}
  | SelectSort value => {| name := name data; query := query data; sort := Some value |}
  end.

(** The select field only offers the values of [sortOptions()]. *)
Definition selectable (organization : Organization) (e : FormEdit) : Prop :=
  match e with
  | SelectSort value => value ∈ sortOptions (Some organization)
  | _ => True
  end.

(** The data of the form after the user's edits. *)
Definition form_data (organization : Organization) (query' : string)
    (sort' : option string) (edits : list FormEdit) : FormData :=
  foldl edit (initialData organization query' sort') edits.

(** The sort values the user picked, in order. *)
Definition selected_sorts (edits : list FormEdit) : list string :=
  omap (λ e, match e with SelectSort value => Some value | _ => None end) edits.

End Modal.

(** The sort value passed to [createSavedSearch] in a list of calls. *)
Fixpoint submitted_sort (calls : list Call) : option string :=
  match calls with
  | [] => None
  | CreateSavedSearch _ _ _ sort' :: _ => Some sort'
  | _ :: rest => submitted_sort rest
  end.

Definition isCreateSavedSearch (call : Call) : bool :=
  match call with CreateSavedSearch _ _ _ _ => true | _ => false end.

(** The values of the enum in the application, and an organization
    without the trend sort feature. *)
Definition example_options : IssueSortOptions :=
  {| DATE := "date"; NEW := "new"; FREQ := "freq";
     PRIORITY := "priority"; USER := "user"; TREND := "trend" |}.

Definition example_organization : Organization :=
  {| slug := "acme"; features := Some ["discover-basic"] |}.

End CreateSavedSearchModal.

(** ** app/components/modals/debugFileCustomRepository/http *)

Module DebugFileHttp.

(** The [initialData] prop. [password] is [{'hidden-secret': boolean}]
    when present. *)
Module InitialData.
Record t :=
  { name : string; url : string;
    layout_type : string; layout_casing : string;
    username : option string;
    password : option bool }.
End InitialData.

(** The form data kept in the component state. *)
Module Data.
Record t :=
  { name : option string; url : option string;
    username : option string;
    password : option string;
    layout_type : string; layout_casing : string }.
End Data.

Inductive Password :=
| HiddenSecret (hidden_secret : bool)
| Entered (password : string).

(** What [onSubmit] receives. *)
Module SubmitData.
Record t :=
  { id : string;
    name : option string; url : option string;
    layout_type : string; layout_casing : string;
    username : option string;
    password : option Password }.
End SubmitData.

Record Props := { initialData : option InitialData.t }.

(** A JavaScript object: [===] compares the reference, not the fields. *)
Record Obj := { ref : nat; fields : Data.t }.

Definition strict_equal (a b : Obj) : bool := bool_decide (ref a = ref b).

(** What React keeps for the mounted component between renders: the
    [useState] slot (empty before the first render) and the next unused
    object reference. *)
Record Fiber := { hook : option Obj; allocated : nat }.

Definition mount : Fiber := {| hook := None; allocated := 0 |}.

(** The object literal evaluated at the top of every render. *)
Definition initial_fields (props : Props) : Data.t :=
  {| Data.name := InitialData.name <$> initialData props;
     Data.url := InitialData.url <$> initialData props;
     Data.username := initialData props ≫= InitialData.username;
     Data.password :=
       match initialData props ≫= InitialData.password with
       | Some _ => None
       | None => Some ""
       end;
     Data.layout_type := default "native" (InitialData.layout_type <$> initialData props);
     Data.layout_casing := default "default" (InitialData.layout_casing <$> initialData props) |}.

Definition isFormInvalid (data : Obj) : bool :=
  negb (Js.truthy (Data.name (fields data))) || negb (Js.truthy (Data.url (fields data))).

Definition formUnchanged (data initialData' : Obj) : bool := strict_equal data initialData'.

(** [handleSubmit]; [id] is the value [uniqueId()] returns. *)
Definition handleSubmit (id : string) (data : Obj) : SubmitData.t :=
  let validData := fields data in
  {| SubmitData.id := id;
     SubmitData.name := Data.name validData;
     SubmitData.url := Data.url validData;
     SubmitData.layout_type := Data.layout_type validData;
     SubmitData.layout_casing := Data.layout_casing validData;
     SubmitData.username := Data.username validData;
     SubmitData.password :=
       match Data.password validData with
       | None => Some (HiddenSecret true)
       | Some entered =>
           if negb (Js.truthy (Some entered)) then None else Some (Entered entered)
       end |}.

(** One render: the values the closures of that render see, and the
    [disabled] prop of the 'Save changes' button. *)
Record Rendered := { initialData' : Obj; data : Obj; disabled : bool }.

Definition render (props : Props) (f : Fiber) : Rendered * Fiber :=
  let initialData'' := {| ref := allocated f; fields := initial_fields props |} in
  let data' := default initialData'' (hook f) in
  ({| initialData' := initialData'';
      data := data';
      disabled := isFormInvalid data' || formUnchanged data' initialData'' |},
   {| hook := Some data'; allocated := S (allocated f) |}).

(** The event handlers of the form; each calls [setData] with a new
    object literal [{...data, field: value}]. *)
Inductive UserAction :=
| ChangeName (value : string)
| ChangeUrl (value : string)
| ChangeUsername (value : string)
| ChangePassword (value : string)
| ClearPassword
| ChangeLayoutType (value : string)
| ChangeLayoutCasing (value : string).

Definition spread (d : Data.t) (a : UserAction) : Data.t :=
  match a with
  | ChangeName v =>
      {| Data.name := Some v; Data.url := Data.url d; Data.username := Data.username d;
         Data.password := Data.password d; Data.layout_type := Data.layout_type d;
         Data.layout_casing := Data.layout_casing d |}
  | ChangeUrl v =>
      {| Data.name := Data.name d; Data.url := Some v; Data.username := Data.username d;
         Data.password := Data.password d; Data.layout_type := Data.layout_type d;
         Data.layout_casing := Data.layout_casing d |}
  | ChangeUsername v =>
      {| Data.name := Data.name d; Data.url := Data.url d; Data.username := Some v;
         Data.password := Data.password d; Data.layout_type := Data.layout_type d;
         Data.layout_casing := Data.layout_casing d |}
  | ChangePassword v =>
      {| Data.name := Data.name d; Data.url := Data.url d; Data.username := Data.username d;
         Data.password := Some v; Data.layout_type := Data.layout_type d;
         Data.layout_casing := Data.layout_casing d |}
  | ClearPassword =>
      {| Data.name := Data.name d; Data.url := Data.url d; Data.username := Data.username d;
         Data.password := Some ""; Data.layout_type := Data.layout_type d;
         Data.layout_casing := Data.layout_casing d |}
  | ChangeLayoutType v =>
      {| Data.name := Data.name d; Data.url := Data.url d; Data.username := Data.username d;
         Data.password := Data.password d; Data.layout_type := v;
         Data.layout_casing := Data.layout_casing d |}
  | ChangeLayoutCasing v =>
      {| Data.name := Data.name d; Data.url := Data.url d; Data.username := Data.username d;
         Data.password := Data.password d; Data.layout_type := Data.layout_type d;
         Data.layout_casing := v |}
  end.

Definition setData (d : Data.t) (f : Fiber) : Fiber :=
  {| hook := Some {| ref := allocated f; fields := d |}; allocated := S (allocated f) |}.

(** A handler of the last render runs, then React renders again. *)
Definition act (props : Props) (a : UserAction) (rf : Rendered * Fiber) : Rendered * Fiber :=
  render props (setData (spread (fields (data rf.1)) a) rf.2).

(** The modal is opened and the user performs [actions]. *)
Definition session (props : Props) (actions : list UserAction) : Rendered * Fiber :=
  foldl (λ rf a, act props a rf) (render props mount) actions.

(** An existing repository, edited. *)
Definition example_props : Props :=
  {| initialData :=
       Some {| InitialData.name := "Symbols";
               InitialData.url := "https://symbols.example.com/";
               InitialData.layout_type := "native";
               InitialData.layout_casing := "default";
               InitialData.username := Some "admin";
               InitialData.password := Some true |} |}.

(** The condition under which the 'Clear password' button is rendered:
    [data.password === undefined ||
     (typeof data.password === 'string' && !!data.password)]. *)
Definition showClearPassword (data : Obj) : bool :=
  match Data.password (fields data) with
  | None => true
  | Some entered => Js.truthy (Some entered)
  end.

(** The [type] of the password input. *)
Definition passwordInputType (data : Obj) : string :=
  match Data.password (fields data) with
  | None => "text"
  | Some _ => "password"
  end.

(** The actions on the password field: typing in it, and the clear button. *)
Definition isPasswordAction (a : UserAction) : bool :=
  match a with
  | ChangePassword _ | ClearPassword => true
  | _ => false
  end.

(** A repository that is being added. *)
Definition new_repository : Props := {| initialData := None |}.

End DebugFileHttp.

(** ** app/components/organizations/globalSelectionHeader: the project search *)

Module GlobalSelectionHeader.

(** The options object passed to [onSearch]. *)
Record Options := { append : bool }.

Record State :=
  { projects : option (list Z);
    environments : option (list string);
    searchQuery : string }.

(** A call [onSearch(query, options)] and the time, in ms, it is made. *)
Record Search := { time : nat; query : string; options : Options }.

(** The function wrapped by [debounce] in [searchDispatcher]: the
    arguments [onSearch] is called with, and the state after
    [setState({searchQuery})]. *)
Definition searchDispatcher_fn (searchQuery' : string) (options' : Options) (st : State)
  : (string * Options) * State :=
  let options'' :=
    if String.eqb (searchQuery st) searchQuery' then {| append := true |} else options' in
  ((searchQuery', options''),
   {| projects := projects st; environments := environments st;
      searchQuery := searchQuery' |}).

(** The second argument of [debounce]. *)
Definition wait : nat := 200.

(** The component with its debounced dispatcher.  [debounce(fn, wait)]
    of lodash with the default options invokes on the trailing edge only:
    every call replaces the remembered arguments and restarts a timer of
    [wait] ms, and [fn] runs with the last arguments when the timer
    expires.  [timer] is the pending expiry time with those arguments;
    [searches] lists the calls of [onSearch] made so far. *)
Record Instance :=
  { state : State;
    timer : option (nat * (string * Options));
    searches : list Search }.

Definition mount : Instance :=
  {| state := {| projects := None; environments := None; searchQuery := "" |};
     timer := None;
     searches := [] |}.

(** The timer expires: the wrapped function runs. *)
Definition expire (c : Instance) : Instance :=
  match timer c with
  | Some (deadline, (searchQuery', options')) =>
      let '((q, o), st) := searchDispatcher_fn searchQuery' options' (state c) in
      {| state := st;
         timer := None;
         searches := searches c ++ [ {| time := deadline; query := q; options := o |} ] |}
  | None => c
  end.

(** Time passes until [now]. *)
Definition advance (now : nat) (c : Instance) : Instance :=
  match timer c with
  | Some (deadline, _) => if bool_decide (deadline ≤ now) then expire c else c
  | None => c
  end.

(** [onFilterChange] at time [now]:
    [this.searchDispatcher(onSearch, event.target.value, {append: false})]. *)
Definition onFilterChange (now : nat) (value : string) (c : Instance) : Instance :=
  let c := advance now c in
  {| state := state c;
     timer := Some (now + wait, (value, {| append := false |}));
     searches := searches c |}.

(** The user's filter changes, each with its time, then time passes
    until [final]. *)
Definition run (events : list (nat * string)) (final : nat) : Instance :=
  advance final (foldl (λ c e, onFilterChange e.1 e.2 c) mount events).

(** Two searches are at least [wait] ms apart. *)
Definition apart (s1 s2 : Search) : Prop := time s1 + wait ≤ time s2.

(** Each search appends exactly when it repeats the stored query, which
    it then replaces. *)
Fixpoint follows (stored : string) (l : list Search) : Prop :=
  match l with
  | [] => True
  | s :: l' =>
      append (options s) = bool_decide (query s = stored) ∧ follows (query s) l'
  end.

Definition last_query (stored : string) (l : list Search) : string :=
  foldl (λ _ s, query s) stored l.

(** What holds of the component at time [clock], after the filter
    changes [processed]. *)
Record Inv (clock : nat) (processed : list (nat * string)) (c : Instance) : Prop :=
  { inv_apart : StronglySorted apart (searches c);
    inv_follows : follows "" (searches c);
    inv_stored : searchQuery (state c) = last_query "" (searches c);
    inv_past : Forall (λ s, time s ≤ clock) (searches c);
    inv_trailing :
      Forall (λ s, ∃ t, time s = t + wait ∧ (t, query s) ∈ processed) (searches c);
    inv_timer : ∀ deadline q o,
      timer c = Some (deadline, (q, o)) →
      o = {| append := false |} ∧
      Forall (λ s, time s + wait ≤ deadline) (searches c) ∧
      ∃ t, deadline = t + wait ∧ t ≤ clock ∧ (t, q) ∈ processed }.

(** *** Scrolling the project list *)

(** The render props of [Projects] that [onScroll] reads, and the
    geometry of the scroll event. *)
Record ProjectsRenderProps := { fetching : bool; hasMore : bool }.

Record ScrollEvent := { clientHeight : Z; scrollHeight : Z; scrollTop : Z }.

(** The test of [onScroll]: nothing is being fetched, the user has
    scrolled to within one viewport of the end, and there is more to
    fetch. *)
Definition scrolledFarEnough (p : ProjectsRenderProps) (e : ScrollEvent) : bool :=
  negb (fetching p)
  && bool_decide (scrollHeight e - clientHeight e ≤ scrollTop e + clientHeight e)%Z
  && hasMore p.

(** The header with both dispatchers.  [debounce(fn, wait, {leading: true,
    trailing: false})] invokes on the leading edge only: a call runs [fn]
    at once unless another call was made less than [wait] ms before it,
    and every call restarts that quiet period.  [lastScrollCall] is the
    time of the last call of [scrollFetchDispatcher]. *)
Record Header := { instance : Instance; lastScrollCall : option nat }.

Definition mountHeader : Header := {| instance := mount; lastScrollCall := None |}.

(** The function wrapped in [scrollFetchDispatcher]:
    [onSearch(this.state.searchQuery, options)]. *)
Definition scrollFetch_fn (now : nat) (options' : Options) (c : Instance) : Instance :=
  {| state := state c;
     timer := timer c;
     searches :=
       searches c ++ [ {| time := now; query := searchQuery (state c);
                          options := options' |} ] |}.

Definition scrollFetchDispatcher (now : nat) (options' : Options) (h : Header) : Header :=
  let leading :=
    match lastScrollCall h with
    | None => true
    | Some last => bool_decide (last + wait ≤ now)
    end in
  {| instance := if leading then scrollFetch_fn now options' (instance h) else instance h;
     lastScrollCall := Some now |}.

(** [onScroll] at time [now]. *)
Definition onScroll (now : nat) (p : ProjectsRenderProps) (e : ScrollEvent) (h : Header)
  : Header :=
  let h := {| instance := advance now (instance h); lastScrollCall := lastScrollCall h |} in
  if scrolledFarEnough p e then scrollFetchDispatcher now {| append := true |} h else h.

(** What the user does in the project selector. *)
Inductive HeaderEvent :=
| FilterChange (value : string)
| Scroll (p : ProjectsRenderProps) (e : ScrollEvent).

Definition isScroll (ev : nat * HeaderEvent) : bool :=
  match ev.2 with Scroll _ _ => true | FilterChange _ => false end.

Definition header_step (h : Header) (ev : nat * HeaderEvent) : Header :=
  match ev.2 with
  | FilterChange value =>
      {| instance := onFilterChange ev.1 value (instance h);
         lastScrollCall := lastScrollCall h |}
  | Scroll p e => onScroll ev.1 p e h
  end.

Definition header_run (events : list (nat * HeaderEvent)) (final : nat) : Header :=
  let h := foldl header_step mountHeader events in
  {| instance := advance final (instance h); lastScrollCall := lastScrollCall h |}.

(** *** Changing and updating projects and environments *)

(** The options object of [getUpdateOptions], with the [environments]
    entry [handleUpdateProjects] adds. *)
Record UpdateOptions :=
  { save : bool; resetParams : list string; resetEnvironments : option (list string) }.

(** The calls the handlers make: the action creators of
    [app/actionCreators/globalSelection], and [callIfFunction] on the
    callback props. *)
Inductive SelectionCall :=
| UpdateProjects (projects' : list Z) (options' : UpdateOptions)
| UpdateEnvironments (environments' : option (list string)) (options' : UpdateOptions)
| OnChangeProjects (projects' : option (list Z))
| OnChangeEnvironments (environments' : option (list string))
| OnUpdateProjects (projects' : option (list Z))
| OnUpdateEnvironments (environments' : option (list string)).

Definition getUpdateOptions (resetParamsOnChange : list string) : UpdateOptions :=
  {| save := true; resetParams := resetParamsOnChange; resetEnvironments := None |}.

Definition handleChangeProjects (projects' : option (list Z)) (st : State)
  : list SelectionCall * State :=
  ([OnChangeProjects projects'],
   {| projects := projects'; environments := environments st;
      searchQuery := searchQuery st |}).

Definition handleChangeEnvironments (environments' : option (list string)) (st : State)
  : list SelectionCall * State :=
  ([OnChangeEnvironments environments'],
   {| projects := projects st; environments := environments';
      searchQuery := searchQuery st |}).

Definition handleUpdateEnvironmments (resetParamsOnChange : list string) (st : State)
  : list SelectionCall * State :=
  ([UpdateEnvironments (environments st) (getUpdateOptions resetParamsOnChange);
    OnUpdateEnvironments (environments st)],
   {| projects := projects st; environments := None; searchQuery := searchQuery st |}).

Definition handleUpdateProjects (resetParamsOnChange : list string) (st : State)
  : list SelectionCall * State :=
  ([UpdateProjects (default [] (projects st))
      {| save := save (getUpdateOptions resetParamsOnChange);
         resetParams := resetParams (getUpdateOptions resetParamsOnChange);
         resetEnvironments := Some [] |};
    OnUpdateProjects (projects st)],
   {| projects := None; environments := None; searchQuery := searchQuery st |}).

(** Handlers run one after the other. *)
Definition then_ (h1 h2 : State → list SelectionCall * State) (st : State)
  : list SelectionCall * State :=
  let '(calls1, st1) := h1 st in
  let '(calls2, st2) := h2 st1 in
  (calls1 ++ calls2, st2).

(** The value the project selector shows:
    [this.state.projects || this.props.selection.projects]. *)
Definition shownProjects (selection_projects : list Z) (st : State) : list Z :=
  default selection_projects (projects st).

Definition isUpdateEnvironments (call : SelectionCall) : bool :=
  match call with UpdateEnvironments _ _ => true | _ => false end.

(** What holds of the searches whatever the user does: each search
    appends exactly when it repeats the stored query, the stored query is
    the one of the last search, and a pending filter change carries
    [append: false]. *)
Record Consistent (c : Instance) : Prop :=
  { consistent_follows : follows "" (searches c);
    consistent_stored : searchQuery (state c) = last_query "" (searches c);
    consistent_timer : ∀ deadline q o,
      timer c = Some (deadline, (q, o)) → o = {| append := false |} }.

(** What holds at time [clock] when the user has only scrolled. *)
Record ScrollInv (clock : nat) (processed : list (nat * HeaderEvent)) (h : Header) : Prop :=
  { scroll_timer : timer (instance h) = None;
    scroll_state : state (instance h) = state mount;
    scroll_apart : StronglySorted apart (searches (instance h));
    scroll_from :
      Forall (λ s, append (options s) = true ∧ query s = "" ∧
                   ∃ p e, (time s, Scroll p e) ∈ processed ∧ scrolledFarEnough p e = true)
             (searches (instance h));
    scroll_last :
      match lastScrollCall h with
      | None => searches (instance h) = []
      | Some last => last ≤ clock ∧ Forall (λ s, time s ≤ last) (searches (instance h))
      end }.

(** A burst of filter changes after a change at time [previous]: each
    comes less than [wait] ms after the one before it. *)
Fixpoint burst (previous : nat) (events : list (nat * string)) : Prop :=
  match events with
  | [] => True
  | e :: rest => previous ≤ e.1 ∧ e.1 < previous + wait ∧ burst e.1 rest
  end.

End GlobalSelectionHeader.

(** * Properties *)

Module PerformanceFacts.
Import Performance.

(** *** The map built from one row *)

Lemma keyed_step_lookup kts e p :
  keyed_step kts e !! p =
  if decide (p = project_id e)
  then Some (default ∅ (kts !! p) ∪ {[transaction e]})
  else kts !! p.
Proof.
  unfold keyed_step. destruct (decide (p = project_id e)) as [->|Hp].
  - destruct (decide (is_Some (kts !! project_id e))) as [[names Hn]|Hn].
    + rewrite lookup_alter_eq, Hn. done.
    + rewrite lookup_alter_eq, lookup_insert_eq.
      apply eq_None_not_Some in Hn. by rewrite Hn.
  - rewrite lookup_alter_ne by done.
    case_decide; [done|]. by rewrite lookup_insert_ne.
Qed.

Lemma foldl_keyed_step_lookup k kts p :
  foldl keyed_step kts k !! p =
  match filter (λ e, project_id e = p) k with
  | [] => kts !! p
  | es => Some (default ∅ (kts !! p) ∪ list_to_set (transaction <$> es))
  end.
Proof.
  revert kts. induction k as [|e k IH]; intros kts; [done|].
  cbn [foldl]. rewrite IH, keyed_step_lookup.
  destruct (decide (project_id e = p)) as [Hp|Hp].
  - rewrite filter_cons_True by done. rewrite decide_True by done.
    destruct (filter (λ e0, project_id e0 = p) k) as [|e' es]; simpl.
    + f_equal. set_solver.
    + f_equal. set_solver.
  - rewrite filter_cons_False by done. rewrite decide_False by done.
    done.
Qed.

(** The entry of a project in the map built from one keyed list. *)
Lemma keyed_reduce_lookup_filter k p :
  keyed_reduce k !! p =
  match filter (λ e, project_id e = p) k with
  | [] => None
  | es => Some (list_to_set (transaction <$> es))
  end.
Proof.
  unfold keyed_reduce. rewrite foldl_keyed_step_lookup, lookup_empty. simpl.
  destruct (filter _ k); [done|]. f_equal. set_solver.
Qed.

Section Facts.
Context {World : Type}.
Variable t : string → string.
Variable parseLinkHeader : string → gmap string Link.t.
Variable api : @Client World.
Variable orgSlug : string.
Variable teams : string + list string.

Abbreviation iteration := (fetch_iteration t parseLinkHeader api orgSlug teams).
Abbreviation loop fuel := (fetch_loop t parseLinkHeader fuel api orgSlug teams).
Abbreviation next_relation := (Performance.next_relation parseLinkHeader).
Abbreviation continues := (Performance.continues parseLinkHeader).
Abbreviation stops := (Performance.stops parseLinkHeader).
Abbreviation more_pages := (Performance.more_pages parseLinkHeader api orgSlug teams).
Abbreviation page_requests := (Performance.page_requests parseLinkHeader orgSlug teams).

Lemma next_hasMore_true r : next_hasMore parseLinkHeader r = true ↔ continues r.
Proof.
  unfold next_hasMore, continues, next_relation.
  destruct (Js.truthy (pageLinks r)); [|by split].
  destruct (parseLinkHeader _ !! "next") as [l|]; simpl; [|by split].
  destruct (Link.results l) as [[]|]; simpl; split; congruence.
Qed.

Lemma next_hasMore_false r : next_hasMore parseLinkHeader r = false ↔ stops r.
Proof.
  unfold stops. split.
  - intros H. destruct (Js.truthy (pageLinks r)) eqn:E; [right|by left].
    intros Hc. apply next_hasMore_true in Hc. congruence.
  - intros [H|H].
    + unfold next_hasMore. by rewrite H.
    + destruct (next_hasMore parseLinkHeader r) eqn:E; [|done].
      apply next_hasMore_true in E. done.
Qed.

Lemma next_cursor_continues c r :
  continues r → next_cursor parseLinkHeader c r = next_relation r ≫= Link.cursor.
Proof.
  unfold continues, next_cursor, next_relation.
  destruct (Js.truthy (pageLinks r)); [|done].
  by destruct (parseLinkHeader _ !! "next").
Qed.

Lemma iteration_resolved c tkt s w r :
  api (world s) (list_url orgSlug) (list_options c teams) = (w, inr r) →
  iteration c tkt s =
    ({| world := w;
        log := log s ++ [RequestPromise (list_url orgSlug) (list_options c teams) (inr r)] |},
     inr (data_forEach (data r) tkt, next_hasMore parseLinkHeader r,
          next_cursor parseLinkHeader c r)).
Proof.
  intros H. unfold fetch_iteration, try_catch, mbind, M_bind, bind, requestPromise.
  by rewrite H.
Qed.

Lemma iteration_rejected c tkt s w err :
  api (world s) (list_url orgSlug) (list_options c teams) = (w, inl err) →
  iteration c tkt s =
    ({| world := w;
        log := log s ++ [RequestPromise (list_url orgSlug) (list_options c teams) (inl err);
                         AddErrorMessage (fetch_error_message t err)] |},
     inl err).
Proof.
  intros H. unfold fetch_iteration, try_catch, mbind, M_bind, bind, requestPromise.
  rewrite H. simpl. by rewrite <- app_assoc.
Qed.


(** More fuel never changes a result already obtained. *)
Lemma fetch_loop_mono fuel fuel' c tkt s res :
  loop fuel c tkt s = Some res → fuel ≤ fuel' → loop fuel' c tkt s = Some res.
Proof.
  revert fuel' c tkt s. induction fuel as [|fuel IH]; intros fuel' c tkt s H Hle; [done|].
  destruct fuel' as [|fuel']; [lia|]. simpl in *.
  destruct (iteration c tkt s) as [s1 [err|[[tkt1 hasMore] c1]]]; [done|].
  destruct hasMore; [|done]. apply IH; [done|lia].
Qed.

(** A run over pages that all ask for more, from any point of the loop. *)
Lemma fetch_loop_more_pages fuel w c ps w' c' tkt s :
  more_pages w c ps w' c' → world s = w →
  loop (length ps + fuel) c tkt s =
  loop fuel c' (accumulate ps tkt) {| world := w'; log := log s ++ page_requests c ps |}.
Proof.
  intros Hp. revert tkt s. induction Hp as [w c|w c r w1 ps w' c' Hreq Hcont Hp IH]; intros tkt s Hw.
  - simpl. rewrite app_nil_r. destruct s; simpl in *; by subst.
  - simpl. subst w. rewrite (iteration_resolved _ _ _ _ _ Hreq).
    apply next_hasMore_true in Hcont as Hmore. rewrite Hmore.
    rewrite next_cursor_continues by done.
    rewrite IH by done. simpl. by rewrite <- app_assoc.
Qed.

Lemma page_requests_app w c ps w' c' rs :
  more_pages w c ps w' c' →
  page_requests c (ps ++ rs) = page_requests c ps ++ page_requests c' rs.
Proof.
  induction 1 as [|w c r w1 ps w' c' _ _ _ IH]; simpl; [done|]. by rewrite IH.
Qed.

(** The run ends with a response that stops the pagination. *)
Lemma fetch_loop_completes fuel w c ps w1 c1 w2 last tkt s :
  more_pages w c ps w1 c1 → world s = w →
  api w1 (list_url orgSlug) (list_options c1 teams) = (w2, inr last) →
  stops last →
  length ps < fuel →
  loop fuel c tkt s =
    Some ({| world := w2; log := log s ++ page_requests c (ps ++ [last]) |},
          inr (accumulate (ps ++ [last]) tkt)).
Proof.
  intros Hp Hw Hreq Hstop Hfuel.
  replace fuel with (length ps + S (fuel - length ps - 1)) by lia.
  rewrite (fetch_loop_more_pages _ _ _ _ _ _ _ _ Hp Hw). simpl.
  rewrite (iteration_resolved _ _ _ w2 last) by exact Hreq.
  apply next_hasMore_false in Hstop. rewrite Hstop. simpl.
  unfold accumulate. rewrite foldl_app. simpl.
  by rewrite (page_requests_app _ _ _ _ _ [last] Hp), app_assoc.
Qed.

(** The run ends with a request that fails. *)
Lemma fetch_loop_rejects fuel w c ps w1 c1 w2 err tkt s :
  more_pages w c ps w1 c1 → world s = w →
  api w1 (list_url orgSlug) (list_options c1 teams) = (w2, inl err) →
  length ps < fuel →
  loop fuel c tkt s =
    Some ({| world := w2;
             log := log s ++ page_requests c ps ++
                    [RequestPromise (list_url orgSlug) (list_options c1 teams) (inl err);
                     AddErrorMessage (fetch_error_message t err)] |},
          inl err).
Proof.
  intros Hp Hw Hreq Hfuel.
  replace fuel with (length ps + S (fuel - length ps - 1)) by lia.
  rewrite (fetch_loop_more_pages _ _ _ _ _ _ _ _ Hp Hw). simpl.
  rewrite (iteration_rejected _ _ _ w2 err) by exact Hreq. simpl.
  by rewrite <- app_assoc.
Qed.


(** Every run that returns is one of the two runs above. *)
Lemma fetch_loop_inv fuel c tkt s s' res :
  loop fuel c tkt s = Some (s', res) →
  ∃ ps w1 c1,
    more_pages (world s) c ps w1 c1 ∧
    ((∃ last,
        api w1 (list_url orgSlug) (list_options c1 teams) = (world s', inr last) ∧
        stops last ∧
        log s' = log s ++ page_requests c (ps ++ [last]) ∧
        res = inr (accumulate (ps ++ [last]) tkt))
     ∨
     (∃ err,
        api w1 (list_url orgSlug) (list_options c1 teams) = (world s', inl err) ∧
        log s' = log s ++ page_requests c ps ++
                 [RequestPromise (list_url orgSlug) (list_options c1 teams) (inl err);
                  AddErrorMessage (fetch_error_message t err)] ∧
        res = inl err)).
Proof.
  revert c tkt s. induction fuel as [|fuel IH]; intros c tkt s H; [done|].
  simpl in H.
  destruct (api (world s) (list_url orgSlug) (list_options c teams)) as [w [err|r]] eqn:Hreq.
  - rewrite (iteration_rejected _ _ _ _ _ Hreq) in H. simplify_eq.
    exists [], (world s), c. split; [constructor|]. right. by exists err.
  - rewrite (iteration_resolved _ _ _ _ _ Hreq) in H.
    destruct (next_hasMore parseLinkHeader r) eqn:Hmore.
    + apply next_hasMore_true in Hmore as Hcont.
      rewrite next_cursor_continues in H by done.
      apply IH in H as (ps & w1 & c1 & Hp & Hend). simpl in *.
      exists (r :: ps), w1, c1. split; [by econstructor|].
      destruct Hend as [(last & ? & ? & Hlog & ?)|(err & ? & Hlog & ?)]; [left|right].
      * exists last. by rewrite Hlog, <- app_assoc.
      * exists err. by rewrite Hlog, <- app_assoc.
    + simplify_eq. apply next_hasMore_false in Hmore.
      exists [], (world s), c. split; [constructor|]. left. by exists r.
Qed.

Lemma page_requests_resolved c ps e :
  e ∈ page_requests c ps → isRequest e = true ∧ isFailedRequest e = false.
Proof.
  revert c. induction ps as [|r ps IH]; intros c; simpl; [by intros ?%elem_of_nil|].
  intros [->|?]%elem_of_cons; [done|]. by eapply IH.
Qed.

(** *** What the Link header of a response says *)

Lemma continues_link r :
  continues r →
  (∃ h, xhr r ≫= (λ x, responseHeaders x !! "Link") = Some h ∧ h ≠ "") ∧
  next_relation r =
    (xhr r ≫= (λ x, responseHeaders x !! "Link")) ≫= (λ h, parseLinkHeader h !! "next").
Proof.
  unfold continues, Performance.next_relation, pageLinks, getResponseHeader.
  destruct (xhr r) as [x|]; simpl; [|done].
  destruct (responseHeaders x !! "Link") as [h|]; simpl; [|done].
  destruct (String.eqb_spec h "") as [->|Hne]; simpl; [done|].
  intros _. split; [by exists h|done].
Qed.

Lemma stops_link r :
  stops r →
  xhr r ≫= (λ x, responseHeaders x !! "Link") = None ∨
  xhr r ≫= (λ x, responseHeaders x !! "Link") = Some "" ∨
  ((xhr r ≫= (λ x, responseHeaders x !! "Link")) ≫= (λ h, parseLinkHeader h !! "next"))
    ≫= Link.results ≠ Some true.
Proof.
  unfold stops, Performance.next_relation, pageLinks, getResponseHeader.
  destruct (xhr r) as [x|]; simpl; [|by left].
  destruct (responseHeaders x !! "Link") as [h|]; simpl; [|by left].
  destruct (String.eqb_spec h "") as [->|Hne]; simpl; [by right; left|].
  intros [?|?]; [done|]. by right; right.
Qed.

Lemma more_pages_continues w c ps w' c' :
  more_pages w c ps w' c' → Forall continues ps.
Proof. induction 1; by constructor. Qed.

(** The requests of a run, written out. *)
Lemma page_requests_zip w c ps w' c' last :
  more_pages w c ps w' c' →
  page_requests c (ps ++ [last]) =
  zip_with
    (λ cursor r,
       RequestPromise ("/organizations/" +:+ orgSlug +:+ "/key-transactions-list/")
         {| method := GET;
            includeAllArgs := true;
            query := [("cursor", match cursor with
                                 | Some value => PString value
                                 | None => PUndefined
                                 end);
                      ("team", match teams with
                               | inl one => PString one
                               | inr several => PStrings several
                               end)];
            body := [] |}
         (inr r))
    (c :: ((λ r, ((xhr r ≫= (λ x, responseHeaders x !! "Link"))
                       ≫= (λ h, parseLinkHeader h !! "next"))
                       ≫= Link.cursor) <$> ps))
    (ps ++ [last]).
Proof.
  induction 1 as [w c|w c r w1 ps w' c' _ Hcont _ IH]; [done|].
  cbn [app Performance.page_requests fmap list_fmap zip_with]. rewrite IH.
  destruct (continues_link r Hcont) as [_ ->]. done.
Qed.

(** *** The accumulated map *)

(** The names recorded for a project are exactly the transactions listed
    for it. *)
Lemma keyed_reduce_names k p tn :
  tn ∈ default ∅ (keyed_reduce k !! p) ↔
  ∃ e, e ∈ k ∧ project_id e = p ∧ transaction e = tn.
Proof.
  unfold keyed_reduce.
  assert (∀ kts, tn ∈ default ∅ (foldl keyed_step kts k !! p) ↔
                 tn ∈ default ∅ (kts !! p) ∨ ∃ e, e ∈ k ∧ project_id e = p ∧ transaction e = tn) as H.
  { induction k as [|e k IH]; intros kts; simpl.
    - split; [by left|]. intros [?|(e & ?%elem_of_nil & _)]; done.
    - rewrite IH, keyed_step_lookup. case_decide as Hp; simpl.
      + rewrite elem_of_union, elem_of_singleton. split.
        * intros [[?|?]|(e' & ? & ?)]; [by left| |].
          -- right. exists e. split; [left|done].
          -- right. exists e'. split; [by right|done].
        * intros [?|(e' & [->|?]%elem_of_cons & ? & ?)]; [by left;left| |].
          -- left. by right.
          -- right. by exists e'.
      + split.
        * intros [?|(e' & ? & ?)]; [by left|]. right. exists e'. split; [by right|done].
        * intros [?|(e' & [->|?]%elem_of_cons & ? & ?)]; [by left|congruence|].
          right. by exists e'. }
  rewrite H, lookup_empty. simpl. split; [|by right].
  intros [?%not_elem_of_empty|?]; done.
Qed.

Lemma data_forEach_lookup_notin d m tm :
  (∀ e, e ∈ d → team e ≠ tm) → data_forEach d m !! tm = m !! tm.
Proof.
  revert m. induction d as [|e d IH]; intros m H; simpl; [done|].
  fold (data_forEach d (<[team e:=keyed_reduce (keyed e)]> m)).
  rewrite IH by (intros; apply H; by right).
  rewrite lookup_insert_ne; [done|]. apply H. by left.
Qed.

Lemma data_forEach_lookup_last d1 e d2 m :
  (∀ e', e' ∈ d2 → team e' ≠ team e) →
  data_forEach (d1 ++ e :: d2) m !! team e = Some (keyed_reduce (keyed e)).
Proof.
  intros H. unfold data_forEach. rewrite foldl_app. simpl.
  match goal with |- foldl ?f ?m0 d2 !! _ = _ => change (foldl f m0 d2) with (data_forEach d2 m0) end.
  rewrite data_forEach_lookup_notin by done. apply lookup_insert_eq.
Qed.

Lemma accumulate_lookup_notin rs m tm :
  (∀ r e, r ∈ rs → e ∈ data r → team e ≠ tm) → accumulate rs m !! tm = m !! tm.
Proof.
  revert m. induction rs as [|r rs IH]; intros m H; simpl; [done|].
  fold (accumulate rs (data_forEach (data r) m)).
  rewrite IH by (intros r' e' ??; apply (H r' e'); [by right|done]).
  apply data_forEach_lookup_notin. intros e ?. apply (H r e); [by left|done].
Qed.


Lemma data_forEach_is_Some d m tm :
  is_Some (data_forEach d m !! tm) ↔
  is_Some (m !! tm) ∨ ∃ e, e ∈ d ∧ team e = tm.
Proof.
  revert m. induction d as [|e d IH]; intros m.
  - simpl. split; [by left|]. intros [?|(e & ?%elem_of_nil & _)]; done.
  - change (data_forEach (e :: d) m)
      with (data_forEach d (<[team e := keyed_reduce (keyed e)]> m)).
    rewrite IH. destruct (decide (team e = tm)) as [<-|Hne].
    + rewrite lookup_insert_eq. split.
      * intros _. right. exists e. split; [left|done].
      * intros _. left. eauto.
    + rewrite lookup_insert_ne by done. split.
      * intros [?|(e' & ? & ?)]; [by left|]. right. exists e'. split; [by right|done].
      * intros [?|(e' & [->|?]%elem_of_cons & ?)]; [by left|done|].
        right. by exists e'.
Qed.

Lemma accumulate_is_Some rs m tm :
  is_Some (accumulate rs m !! tm) ↔
  is_Some (m !! tm) ∨ ∃ r e, r ∈ rs ∧ e ∈ data r ∧ team e = tm.
Proof.
  revert m. induction rs as [|r rs IH]; intros m.
  - simpl. split; [by left|]. intros [?|(r & e & ?%elem_of_nil & _)]; done.
  - change (accumulate (r :: rs) m) with (accumulate rs (data_forEach (data r) m)).
    rewrite IH, data_forEach_is_Some. split.
    + intros [[?|(e & ? & ?)]|(r' & e & ? & ? & ?)].
      * by left.
      * right. exists r, e. split; [left|done].
      * right. exists r', e. split; [by right|done].
    + intros [?|(r' & e & [->|?]%elem_of_cons & ? & ?)].
      * by left; left.
      * left. right. by exists e.
      * right. by exists r', e.
Qed.

Lemma split_at_failure (pages : list Event) x y pre z post :
  (∀ e, e ∈ pages → isFailedRequest e = false) →
  isFailedRequest z = true → isFailedRequest y = false →
  pages ++ [x; y] = pre ++ z :: post →
  pre = pages ∧ z = x ∧ post = [y].
Proof.
  intros Hpages Hz Hy. revert pre.
  induction pages as [|p pages IH]; intros pre H.
  - destruct pre as [|a [|b pre]]; simplify_eq/=; [done|congruence|].
    by destruct pre.
  - destruct pre as [|a pre]; simplify_eq/=.
    + rewrite Hpages in Hz by left. done.
    + destruct (IH (λ e He, Hpages e (proj2 (elem_of_cons _ _ _) (or_intror He))) pre) as (-> & -> & ->); done.
Qed.

(** *** toggleKeyTransaction *)

Lemma toggleKeyTransaction_run isKeyTransaction orgId projects transactionName teamIds s :
  ∃ w outcome,
    api (world s) (toggle_url orgId)
        (toggle_options isKeyTransaction projects transactionName teamIds) = (w, outcome) ∧
    toggleKeyTransaction t api isKeyTransaction orgId projects transactionName teamIds s =
      ({| world := w;
          log := log s ++
            [AddLoadingMessage (t "Saving changes…");
             RequestPromise (toggle_url orgId)
               (toggle_options isKeyTransaction projects transactionName teamIds) outcome;
             match outcome with
             | inl response => AddErrorMessage (toggle_error_message t response)
             | inr _ => ClearIndicators
             end] |},
       outcome).
Proof.
  destruct (api (world s) (toggle_url orgId)
              (toggle_options isKeyTransaction projects transactionName teamIds))
    as [w outcome] eqn:Hreq.
  exists w, outcome. split; [done|].
  unfold toggleKeyTransaction, try_catch, mbind, M_bind, bind, requestPromise,
    addLoadingMessage, addErrorMessage, clearIndicators, emit, throw, mret, M_ret, ret.
  simpl. rewrite Hreq. destruct outcome; simpl; by rewrite <- !app_assoc.
Qed.

(** *** The claims about fetchTeamKeyTransactions and toggleKeyTransaction *)

(** C1. When a page request of fetchTeamKeyTransactions fails (after any
    number of pages that asked for more), the failure is caught:
    addErrorMessage is called right after the failed request, with
    err.responseJSON.detail when that is present and with the localized
    'Error fetching team key transactions' otherwise, and the function
    then rejects with that same error. *)
Theorem fetch_failure_is_reported fuel s ps w1 c1 w2 err :
  more_pages (world s) None ps w1 c1 →
  api w1 (list_url orgSlug) (list_options c1 teams) = (w2, inl err) →
  length ps < fuel →
  fetchTeamKeyTransactions t parseLinkHeader fuel api orgSlug teams s =
    Some ({| world := w2;
             log := log s ++ page_requests None ps ++
               [RequestPromise (list_url orgSlug) (list_options c1 teams) (inl err);
                AddErrorMessage
                  match responseJSON err ≫= detail with
                  | Some serverDetail => serverDetail
                  | None => t "Error fetching team key transactions"
                  end] |},
          inl err).
Proof.
  intros Hp Hreq Hfuel. unfold fetchTeamKeyTransactions.
  by rewrite (fetch_loop_rejects fuel _ _ _ _ _ _ _ _ _ Hp eq_refl Hreq Hfuel).
Qed.

(** C2. fetchTeamKeyTransactions requests the pages one after the other:
    GET requests of the list url with the teams, the first with an
    undefined cursor and each following one with the cursor of the [next]
    relation in the previous response's Link header.  It goes on while
    the response has a Link header whose [next] relation has the results
    flag true, and at the first response without a Link header, or whose
    [next] relation's results flag is not true, it returns without a
    further request.  The map returned has a team exactly when a fetched
    row names it, and maps it, per project id of its last row, to the
    set of the transaction names that row lists for the project. *)
Theorem fetch_requests_pages_in_sequence fuel s ps w1 c1 w2 last :
  more_pages (world s) None ps w1 c1 →
  api w1 (list_url orgSlug) (list_options c1 teams) = (w2, inr last) →
  stops last →
  length ps < fuel →
  let link (r : Response) : option string :=
    xhr r ≫= (λ x, responseHeaders x !! "Link") in
  let next (r : Response) : option Link.t :=
    link r ≫= (λ h, parseLinkHeader h !! "next") in
  let request (cursor : option string) (r : Response) : Event :=
    RequestPromise ("/organizations/" +:+ orgSlug +:+ "/key-transactions-list/")
      {| method := GET;
         includeAllArgs := true;
         query := [("cursor", match cursor with
                              | Some value => PString value
                              | None => PUndefined
                              end);
                   ("team", match teams with
                            | inl one => PString one
                            | inr several => PStrings several
                            end)];
         body := [] |}
      (inr r) in
  ∃ s' teamKeyTransactions,
    fetchTeamKeyTransactions t parseLinkHeader fuel api orgSlug teams s =
      Some (s', inr teamKeyTransactions) ∧
    world s' = w2 ∧
    log s' = log s ++ zip_with request
                        (None :: ((λ r, next r ≫= Link.cursor) <$> ps))
                        (ps ++ [last]) ∧
    Forall (λ r, (∃ h, link r = Some h ∧ h ≠ "") ∧ next r ≫= Link.results = Some true) ps ∧
    (link last = None ∨ link last = Some "" ∨ next last ≫= Link.results ≠ Some true) ∧
    (∀ tm, teamKeyTransactions !! tm = None ↔
           ∀ r e, r ∈ ps ++ [last] → e ∈ data r → team e ≠ tm) ∧
    (∀ before pg later d1 entry d2,
       ps ++ [last] = before ++ pg :: later →
       data pg = d1 ++ entry :: d2 →
       (∀ e, e ∈ d2 → team e ≠ team entry) →
       (∀ r e, r ∈ later → e ∈ data r → team e ≠ team entry) →
       ∃ perProject,
         teamKeyTransactions !! team entry = Some perProject ∧
         ∀ project,
           perProject !! project =
           match filter (λ e, project_id e = project) (keyed entry) with
           | [] => None
           | es => Some (list_to_set (transaction <$> es))
           end).
Proof.
  intros Hp Hreq Hstop Hfuel link next request.
  eexists _, _. split.
  { unfold fetchTeamKeyTransactions.
    by eapply (fetch_loop_completes fuel _ _ _ _ _ _ _ _ _ Hp). }
  simpl. split; [done|]. split.
  { by rewrite (page_requests_zip _ _ _ _ _ last Hp). }
  split.
  { eapply Forall_impl; [exact (more_pages_continues _ _ _ _ _ Hp)|].
    intros r Hcont. destruct (continues_link r Hcont) as [Hlink Hnext].
    split; [done|]. unfold next, link. rewrite <- Hnext. exact Hcont. }
  split; [by apply stops_link|]. split.
  - intros tm. rewrite eq_None_not_Some, accumulate_is_Some, lookup_empty. split.
    + intros Hnone r e Hr He Hteam. apply Hnone. right. by exists r, e.
    + intros Hnone [[? ?]|(r & e & Hr & He & Hteam)]; [done|]. by apply (Hnone r e).
  - intros before pg later d1 entry d2 Hsplit Hdata Hd2 Hlater.
    exists (keyed_reduce (keyed entry)). split; [|apply keyed_reduce_lookup_filter].
    rewrite Hsplit. unfold accumulate. rewrite foldl_app. simpl.
    match goal with |- foldl ?f ?m0 later !! _ = _ =>
      change (foldl f m0 later) with (accumulate later m0) end.
    rewrite accumulate_lookup_notin by done.
    rewrite Hdata. by apply data_forEach_lookup_last.
Qed.

(** C3. A failed request is never retried.  When a page request of
    fetchTeamKeyTransactions fails, the function rejects with that error;
    it is the only failed request of the run and no request follows it.
    toggleKeyTransaction makes exactly one request; when it fails the
    only thing that follows is the error notification, and the returned
    promise stays rejected with the error of the request. *)
Theorem failed_request_is_not_retried fuel s ps w1 c1 w2 err :
  more_pages (world s) None ps w1 c1 →
  api w1 (list_url orgSlug) (list_options c1 teams) = (w2, inl err) →
  length ps < fuel →
  (∃ s',
     fetchTeamKeyTransactions t parseLinkHeader fuel api orgSlug teams s = Some (s', inl err) ∧
     world s' = w2 ∧
     ∀ pre url opts err' post,
       log s' = log s ++ pre ++ RequestPromise url opts (inl err') :: post →
       err' = err ∧
       Forall (λ e, isFailedRequest e = false) pre ∧
       Forall (λ e, isRequest e = false) post)
  ∧
  (∀ isKeyTransaction orgId projects transactionName teamIds s0,
     let opts := toggle_options isKeyTransaction projects transactionName teamIds in
     ∃ w outcome notification,
       api (world s0) (toggle_url orgId) opts = (w, outcome) ∧
       toggleKeyTransaction t api isKeyTransaction orgId projects transactionName teamIds s0 =
         ({| world := w;
             log := log s0 ++ [AddLoadingMessage (t "Saving changes…");
                               RequestPromise (toggle_url orgId) opts outcome;
                               notification] |},
          outcome) ∧
       isRequest notification = false ∧
       ∀ response, outcome = inl response →
         notification = AddErrorMessage (toggle_error_message t response)).
Proof.
  intros Hp Hreq Hfuel. split.
  - eexists. split; [by eapply (fetch_loop_rejects fuel _ _ _ _ _ _ _ _ _ Hp)|]. simpl. split; [done|].
    intros pre url opts err' post Hlog.
    apply app_inv_head in Hlog.
    apply split_at_failure in Hlog as (-> & ? & ->);
      [|intros e He; by destruct (page_requests_resolved _ _ _ He)|done..].
    simplify_eq. split; [done|]. split.
    + apply Forall_forall. intros e He. by destruct (page_requests_resolved _ _ _ He).
    + by repeat constructor.
  - intros isKey orgId projects name teamIds s0 opts.
    destruct (toggleKeyTransaction_run isKey orgId projects name teamIds s0)
      as (w & outcome & Hreq' & Hrun).
    eexists w, outcome, _. split; [done|]. split; [exact Hrun|].
    split; [by destruct outcome|]. by intros response ->.
Qed.

(** C9. A team that occurs on several pages keeps only its last entry:
    if [entry] is the last row for team [tm] on page [pg], and no later
    page has a row for [tm], then the returned map holds for [tm] exactly
    the reduction of [entry]'s own keyed list, whatever rows earlier
    pages (or earlier rows of [pg]) had for that team. *)
Theorem last_page_entry_overwrites fuel s ps w1 c1 w2 last before pg later d1 entry d2 tm :
  more_pages (world s) None ps w1 c1 →
  api w1 (list_url orgSlug) (list_options c1 teams) = (w2, inr last) →
  stops last →
  length ps < fuel →
  ps ++ [last] = before ++ pg :: later →
  data pg = d1 ++ entry :: d2 →
  team entry = tm →
  (∀ e, e ∈ d2 → team e ≠ tm) →
  (∀ r e, r ∈ later → e ∈ data r → team e ≠ tm) →
  ∃ s' teamKeyTransactions,
    fetchTeamKeyTransactions t parseLinkHeader fuel api orgSlug teams s =
      Some (s', inr teamKeyTransactions) ∧
    teamKeyTransactions !! tm = Some (keyed_reduce (keyed entry)) ∧
    ∀ project tn,
      tn ∈ default ∅ (default ∅ (teamKeyTransactions !! tm) !! project) ↔
      ∃ e, e ∈ keyed entry ∧ project_id e = project ∧ transaction e = tn.
Proof.
  intros Hp Hreq Hstop Hfuel Hsplit Hdata <- Hd2 Hlater.
  eexists _, _. split; [by eapply (fetch_loop_completes fuel _ _ _ _ _ _ _ _ _ Hp)|].
  assert (accumulate (ps ++ [last]) ∅ !! team entry = Some (keyed_reduce (keyed entry))) as Hlookup.
  { rewrite Hsplit. unfold accumulate. rewrite foldl_app. simpl.
    match goal with |- foldl ?f ?m0 later !! _ = _ =>
      change (foldl f m0 later) with (accumulate later m0) end.
    rewrite accumulate_lookup_notin by done.
    rewrite Hdata. by apply data_forEach_lookup_last. }
  split; [done|]. intros project tn. rewrite Hlookup. simpl. apply keyed_reduce_names.
Qed.

(** *** Further properties of the fetched map *)

(** X3. The teams of the returned map are exactly the teams that have a
    row on some page; a team whose last row, on whichever page it is,
    has an empty keyed list is present, with an empty map. *)
Theorem fetched_teams fuel s ps w1 c1 w2 last :
  more_pages (world s) None ps w1 c1 →
  api w1 (list_url orgSlug) (list_options c1 teams) = (w2, inr last) →
  stops last →
  length ps < fuel →
  ∃ s' teamKeyTransactions,
    fetchTeamKeyTransactions t parseLinkHeader fuel api orgSlug teams s =
      Some (s', inr teamKeyTransactions) ∧
    (∀ tm, is_Some (teamKeyTransactions !! tm) ↔
           ∃ r e, r ∈ ps ++ [last] ∧ e ∈ data r ∧ team e = tm) ∧
    (∀ tm before pg later d1 d2,
       ps ++ [last] = before ++ pg :: later →
       data pg = d1 ++ {| team := tm; keyed := [] |} :: d2 →
       (∀ e, e ∈ d2 → team e ≠ tm) →
       (∀ r e, r ∈ later → e ∈ data r → team e ≠ tm) →
       teamKeyTransactions !! tm = Some ∅).
Proof.
  intros Hp Hreq Hstop Hfuel.
  eexists _, _. split; [by eapply (fetch_loop_completes fuel _ _ _ _ _ _ _ _ _ Hp)|].
  split.
  - intros tm. rewrite accumulate_is_Some, lookup_empty. split.
    + intros [[? ?]|?]; done.
    + intros ?. by right.
  - intros tm before pg later d1 d2 Hsplit Hdata Hd2 Hlater.
    rewrite Hsplit. unfold accumulate. rewrite foldl_app. simpl.
    match goal with |- foldl ?f ?m0 later !! _ = _ =>
      change (foldl f m0 later) with (accumulate later m0) end.
    rewrite accumulate_lookup_notin by done.
    rewrite Hdata.
    apply (data_forEach_lookup_last d1 {| team := tm; keyed := [] |} d2). exact Hd2.
Qed.

(** X4. The loop has no bound of its own on the number of pages: against
    a server whose every response asks for another page, the function
    has not returned after any number of iterations. *)
Theorem fetch_has_no_page_limit :
  (∀ w c, ∃ w' r, api w (list_url orgSlug) (list_options c teams) = (w', inr r) ∧
                  continues r) →
  ∀ fuel s, fetchTeamKeyTransactions t parseLinkHeader fuel api orgSlug teams s = None.
Proof.
  intros Hendless fuel. unfold fetchTeamKeyTransactions.
  generalize (@None string) as c. generalize (∅ : TeamKeyTransactions) as tkt.
  induction fuel as [|fuel IH]; intros tkt c s; [done|].
  destruct (Hendless (world s) c) as (w' & r & Hreq & Hcont).
  simpl. rewrite (iteration_resolved _ _ _ _ _ Hreq).
  apply next_hasMore_true in Hcont. rewrite Hcont. apply IH.
Qed.

(** X5. Whenever the function returns, it has seen the whole pagination
    or an error: a returned map is the accumulation of a run of pages
    ended by a response that stops the pagination, and a rejection comes
    from a failed request followed by the error notification.  The pages
    fetched before a failure are not returned. *)
Theorem fetch_returns_only_complete_runs fuel s s' res :
  fetchTeamKeyTransactions t parseLinkHeader fuel api orgSlug teams s = Some (s', res) →
  ∃ ps w1 c1,
    more_pages (world s) None ps w1 c1 ∧
    ((∃ last,
        api w1 (list_url orgSlug) (list_options c1 teams) = (world s', inr last) ∧
        stops last ∧
        log s' = log s ++ page_requests None (ps ++ [last]) ∧
        res = inr (accumulate (ps ++ [last]) ∅))
     ∨
     (∃ err,
        api w1 (list_url orgSlug) (list_options c1 teams) = (world s', inl err) ∧
        log s' = log s ++ page_requests None ps ++
                 [RequestPromise (list_url orgSlug) (list_options c1 teams) (inl err);
                  AddErrorMessage (fetch_error_message t err)] ∧
        res = inl err)).
Proof. apply fetch_loop_inv. Qed.

End Facts.

(** X1. The map built from one row's keyed list has an entry for a
    project exactly when the list mentions that project, and the entry is
    the set of the transactions listed for it: no project is ever mapped
    to an empty set. *)
Theorem keyed_reduce_lookup k p :
  keyed_reduce k !! p =
  match filter (λ e, project_id e = p) k with
  | [] => None
  | es => Some (list_to_set (transaction <$> es))
  end
  ∧ (∀ names, keyed_reduce k !! p = Some names → names ≠ ∅).
Proof.
  pose proof (keyed_reduce_lookup_filter k p) as Hlookup.
  split; [done|]. intros names. rewrite Hlookup.
  destruct (filter _ k) as [|e es]; [done|]. intros [= <-]. simpl. set_solver.
Qed.

Lemma keyed_reduce_None k p :
  keyed_reduce k !! p = None ↔ ∀ e, e ∈ k → project_id e ≠ p.
Proof.
  rewrite keyed_reduce_lookup_filter.
  destruct (filter (λ e, project_id e = p) k) as [|e es] eqn:Hf.
  - split; [|done]. intros _ e He Hp.
    assert (e ∈ filter (λ e, project_id e = p) k) as Hin by (by apply list_elem_of_filter).
    rewrite Hf in Hin. by apply elem_of_nil in Hin.
  - split; [done|]. intros Hall. exfalso.
    assert (e ∈ filter (λ e, project_id e = p) k) as Hin by (rewrite Hf; left).
    apply list_elem_of_filter in Hin as [Hp Hin]. by apply (Hall e).
Qed.

(** X2. Neither the order of the keyed entries nor repeated entries
    matter: two keyed lists with the same elements give the same map. *)
Theorem keyed_reduce_same_elements k1 k2 :
  (∀ e, e ∈ k1 ↔ e ∈ k2) → keyed_reduce k1 = keyed_reduce k2.
Proof.
  intros Hsame. apply map_eq. intros p.
  destruct (keyed_reduce k1 !! p) as [s1|] eqn:H1;
    destruct (keyed_reduce k2 !! p) as [s2|] eqn:H2; [| | |done].
  - f_equal. apply set_eq. intros tn.
    pose proof (keyed_reduce_names k1 p tn) as N1.
    pose proof (keyed_reduce_names k2 p tn) as N2.
    rewrite H1 in N1. rewrite H2 in N2. simpl in *. rewrite N1, N2.
    split; intros (e & He & ?); exists e; (split; [by apply Hsame|done]).
  - exfalso. rewrite keyed_reduce_None in H2.
    pose proof (keyed_reduce_lookup_filter k1 p) as Hl. rewrite H1 in Hl.
    destruct (filter (λ e, project_id e = p) k1) as [|e es] eqn:Hf; [done|].
    assert (e ∈ filter (λ e, project_id e = p) k1) as Hin by (rewrite Hf; left).
    apply list_elem_of_filter in Hin as [Hp Hin]. apply (H2 e); [by apply Hsame|done].
  - exfalso. rewrite keyed_reduce_None in H1.
    pose proof (keyed_reduce_lookup_filter k2 p) as Hl. rewrite H2 in Hl.
    destruct (filter (λ e, project_id e = p) k2) as [|e es] eqn:Hf; [done|].
    assert (e ∈ filter (λ e, project_id e = p) k2) as Hin by (rewrite Hf; left).
    apply list_elem_of_filter in Hin as [Hp Hin]. apply (H1 e); [by apply Hsame|done].
Qed.

(** *** The claims on the scripted server *)

Lemma mock_first_page (api : @Client nat) :
  api 0 (list_url "acme") (list_options None (inr ["1"; "2"])) = (1, inr Mock.page1) →
  more_pages Mock.parseLinkHeader api "acme" (inr ["1"; "2"]) 0 None [Mock.page1] 1 (Some "0:100:0").
Proof.
  intros H. eapply more_pages_cons; [exact H|reflexivity|apply more_pages_nil].
Defined.

Lemma mock_second_page_stops : stops Mock.parseLinkHeader Mock.page2.
Proof. right. vm_compute. discriminate. Defined.

Lemma fetch_failure_is_reported_witness :
  fetchTeamKeyTransactions Mock.t Mock.parseLinkHeader 2 Mock.fails_on_second
    "acme" (inr ["1"; "2"]) Mock.start =
  Some ({| world := 2;
           log := [RequestPromise (list_url "acme") (list_options None (inr ["1"; "2"]))
                     (inr Mock.page1);
                   RequestPromise (list_url "acme")
                     (list_options (Some "0:100:0") (inr ["1"; "2"])) (inl Mock.server_error);
                   AddErrorMessage "Internal error"] |},
        inl Mock.server_error).
Proof.
  apply (fetch_failure_is_reported Mock.t Mock.parseLinkHeader Mock.fails_on_second
           "acme" (inr ["1"; "2"]) 2 Mock.start [Mock.page1] 1 (Some "0:100:0") 2
           Mock.server_error).
  - apply mock_first_page. reflexivity.
  - reflexivity.
  - simpl. lia.
Defined.

Lemma by_cursor_first_page :
  more_pages Mock.parseLinkHeader Mock.by_cursor "acme" (inr ["1"; "2"])
    0 None [Mock.first_page] 1 (Some "0:100:0").
Proof.
  eapply more_pages_cons; [reflexivity|reflexivity|apply more_pages_nil].
Defined.

Lemma fetch_requests_pages_in_sequence_witness :
  fetchTeamKeyTransactions Mock.t Mock.parseLinkHeader 2 Mock.by_cursor
    "acme" (inr ["1"; "2"]) Mock.start =
  Some ({| world := 2;
           log := [RequestPromise "/organizations/acme/key-transactions-list/"
                     {| method := GET;
                        includeAllArgs := true;
                        query := [("cursor", PUndefined); ("team", PStrings ["1"; "2"])];
                        body := [] |}
                     (inr Mock.first_page);
                   RequestPromise "/organizations/acme/key-transactions-list/"
                     {| method := GET;
                        includeAllArgs := true;
                        query := [("cursor", PString "0:100:0");
                                  ("team", PStrings ["1"; "2"])];
                        body := [] |}
                     (inr Mock.page2)] |},
        inr {[ "1" := {[ "12" := {[ "/d" ]} ]};
               "2" := {[ "11" := {[ "/c" ]} ]};
               "3" := ∅ ]}).
Proof.
  destruct (fetch_requests_pages_in_sequence Mock.t Mock.parseLinkHeader Mock.by_cursor
              "acme" (inr ["1"; "2"]) 2 Mock.start [Mock.first_page] 1 (Some "0:100:0") 2
              Mock.page2)
    as (s' & tkt & Hrun & Hworld & Hlog & _ & _ & Hnone & Hentry).
  - apply by_cursor_first_page.
  - reflexivity.
  - apply mock_second_page_stops.
  - simpl. lia.
  - rewrite Hrun. destruct s' as [w l]. simpl in Hworld, Hlog. subst w l.
    f_equal. f_equal. f_equal. apply map_eq. intros tm.
    destruct (decide (tm = "1")) as [->|H1].
    { destruct (Hentry [Mock.first_page] Mock.page2 [] []
                  {| team := "1"; keyed := [ {| project_id := "12"; transaction := "/d" |} ] |}
                  []) as (perProject & Hlookup & Hproject);
        [reflexivity|reflexivity|by intros e ?%elem_of_nil|by intros r e ?%elem_of_nil|].
      simpl in Hlookup. rewrite Hlookup.
      transitivity (Some ({[ "12" := {[ "/d" ]} ]} : KeyTransactionPerProject));
        [|reflexivity].
      f_equal. apply map_eq. intros project. rewrite Hproject.
      destruct (decide (project = "12")) as [->|Hproject12]; [reflexivity|].
      rewrite lookup_singleton_ne by done.
      cbn [keyed]. rewrite filter_cons_False; [done|]. simpl. congruence. }
    destruct (decide (tm = "2")) as [->|H2].
    { destruct (Hentry [] Mock.first_page [Mock.page2]
                  [ {| team := "1"; keyed := [ {| project_id := "10"; transaction := "/a" |};
                                               {| project_id := "10"; transaction := "/b" |} ] |};
                    {| team := "3"; keyed := [] |} ]
                  {| team := "2"; keyed := [ {| project_id := "11"; transaction := "/c" |} ] |}
                  []) as (perProject & Hlookup & Hproject);
        [reflexivity|reflexivity|by intros e ?%elem_of_nil| |].
      { intros r e ->%list_elem_of_singleton ->%list_elem_of_singleton. discriminate. }
      simpl in Hlookup. rewrite Hlookup.
      transitivity (Some ({[ "11" := {[ "/c" ]} ]} : KeyTransactionPerProject));
        [|reflexivity].
      f_equal. apply map_eq. intros project. rewrite Hproject.
      destruct (decide (project = "11")) as [->|Hproject11]; [reflexivity|].
      rewrite lookup_singleton_ne by done.
      cbn [keyed]. rewrite filter_cons_False; [done|]. simpl. congruence. }
    destruct (decide (tm = "3")) as [->|H3].
    { destruct (Hentry [] Mock.first_page [Mock.page2]
                  [ {| team := "1"; keyed := [ {| project_id := "10"; transaction := "/a" |};
                                               {| project_id := "10"; transaction := "/b" |} ] |} ]
                  {| team := "3"; keyed := [] |}
                  [ {| team := "2"; keyed := [ {| project_id := "11"; transaction := "/c" |} ] |} ])
        as (perProject & Hlookup & Hproject); [reflexivity|reflexivity| | |].
      { intros e ->%list_elem_of_singleton. discriminate. }
      { intros r e ->%list_elem_of_singleton ->%list_elem_of_singleton. discriminate. }
      simpl in Hlookup. rewrite Hlookup.
      transitivity (Some (∅ : KeyTransactionPerProject)); [|reflexivity].
      f_equal. apply map_eq. intros project. by rewrite Hproject, lookup_empty. }
    rewrite !lookup_insert_ne, lookup_singleton_ne by done.
    apply Hnone. intros r e Hr He.
    apply elem_of_cons in Hr as [->|Hr]; [|apply list_elem_of_singleton in Hr as ->].
    + simpl in He. repeat (apply elem_of_cons in He as [->|He]; [simpl; congruence|]).
      by apply elem_of_nil in He.
    + simpl in He. apply list_elem_of_singleton in He as ->. simpl. congruence.
Defined.

Lemma failed_request_is_not_retried_witness :
  ∃ s',
    fetchTeamKeyTransactions Mock.t Mock.parseLinkHeader 2 Mock.fails_on_second
      "acme" (inr ["1"; "2"]) Mock.start = Some (s', inl Mock.server_error) ∧
    world s' = 2.
Proof.
  destruct (failed_request_is_not_retried Mock.t Mock.parseLinkHeader Mock.fails_on_second
              "acme" (inr ["1"; "2"]) 2 Mock.start [Mock.page1] 1 (Some "0:100:0") 2
              Mock.server_error) as [(s' & Hrun & Hworld & _) _].
  - apply mock_first_page. reflexivity.
  - reflexivity.
  - simpl. lia.
  - exists s'. split; [exact Hrun|exact Hworld].
Defined.

Lemma last_page_entry_overwrites_witness :
  ∃ s' teamKeyTransactions,
    fetchTeamKeyTransactions Mock.t Mock.parseLinkHeader 2 Mock.two_pages
      "acme" (inr ["1"; "2"]) Mock.start = Some (s', inr teamKeyTransactions) ∧
    teamKeyTransactions !! "1" = Some {[ "12" := {[ "/d" ]} ]}.
Proof.
  destruct (last_page_entry_overwrites Mock.t Mock.parseLinkHeader Mock.two_pages
              "acme" (inr ["1"; "2"]) 2 Mock.start [Mock.page1] 1 (Some "0:100:0") 2 Mock.page2
              [Mock.page1] Mock.page2 [] []
              {| team := "1"; keyed := [ {| project_id := "12"; transaction := "/d" |} ] |}
              [] "1") as (s' & tkt & Hrun & Hlookup & _).
  - apply mock_first_page. reflexivity.
  - reflexivity.
  - apply mock_second_page_stops.
  - simpl. lia.
  - reflexivity.
  - reflexivity.
  - reflexivity.
  - intros e He. inversion He.
  - intros r e Hr. inversion Hr.
  - exists s', tkt. split; [exact Hrun|]. rewrite Hlookup. reflexivity.
Defined.

Lemma fetch_has_no_page_limit_witness :
  fetchTeamKeyTransactions Mock.t Mock.parseLinkHeader 25 Mock.endless
    "acme" (inr ["1"; "2"]) Mock.start = None.
Proof.
  apply (fetch_has_no_page_limit Mock.t Mock.parseLinkHeader Mock.endless
           "acme" (inr ["1"; "2"])).
  intros w c. exists (S w), Mock.page1. split; reflexivity.
Defined.

Lemma fetched_teams_witness :
  ∃ s' teamKeyTransactions,
    fetchTeamKeyTransactions Mock.t Mock.parseLinkHeader 2 Mock.by_cursor
      "acme" (inr ["1"; "2"]) Mock.start = Some (s', inr teamKeyTransactions) ∧
    is_Some (teamKeyTransactions !! "2") ∧
    ¬ is_Some (teamKeyTransactions !! "4") ∧
    teamKeyTransactions !! "3" = Some ∅.
Proof.
  destruct (fetched_teams Mock.t Mock.parseLinkHeader Mock.by_cursor
              "acme" (inr ["1"; "2"]) 2 Mock.start [Mock.first_page] 1 (Some "0:100:0") 2
              Mock.page2) as (s' & tkt & Hrun & Hteams & Hempty).
  - apply by_cursor_first_page.
  - reflexivity.
  - apply mock_second_page_stops.
  - simpl. lia.
  - exists s', tkt. split; [exact Hrun|]. split; [|split].
    + apply Hteams. exists Mock.first_page,
        {| team := "2"; keyed := [ {| project_id := "11"; transaction := "/c" |} ] |}.
      split; [left|]. split; [right; right; left|reflexivity].
    + rewrite Hteams. intros (r & e & Hr & He & Hteam).
      apply elem_of_cons in Hr as [->|Hr]; [|apply list_elem_of_singleton in Hr as ->].
      * simpl in He. repeat (apply elem_of_cons in He as [->|He]; [discriminate Hteam|]).
        by apply elem_of_nil in He.
      * simpl in He. apply list_elem_of_singleton in He as ->. discriminate Hteam.
    + apply (Hempty "3" [] Mock.first_page [Mock.page2]
               [ {| team := "1"; keyed := [ {| project_id := "10"; transaction := "/a" |};
                                            {| project_id := "10"; transaction := "/b" |} ] |} ]
               [ {| team := "2"; keyed := [ {| project_id := "11"; transaction := "/c" |} ] |} ]).
      * reflexivity.
      * reflexivity.
      * intros e He. apply list_elem_of_singleton in He as ->. discriminate.
      * intros r e Hr He. apply list_elem_of_singleton in Hr as ->.
        apply list_elem_of_singleton in He as ->. discriminate.
Defined.

Lemma fetch_returns_only_complete_runs_witness :
  ∃ ps w1 c1,
    more_pages Mock.parseLinkHeader Mock.fails_on_second "acme" (inr ["1"; "2"])
      0 None ps w1 c1 ∧
    length ps = 1.
Proof.
  destruct (fetch_returns_only_complete_runs Mock.t Mock.parseLinkHeader
              Mock.fails_on_second "acme" (inr ["1"; "2"]) 2 Mock.start
              {| world := 2;
                 log := [RequestPromise (list_url "acme")
                           (list_options None (inr ["1"; "2"])) (inr Mock.page1);
                         RequestPromise (list_url "acme")
                           (list_options (Some "0:100:0") (inr ["1"; "2"]))
                           (inl Mock.server_error);
                         AddErrorMessage "Internal error"] |}
              (inl Mock.server_error))
    as (ps & w1 & c1 & Hp & Hend).
  - reflexivity.
  - exists ps, w1, c1. split; [exact Hp|].
    destruct Hend as [(last & _ & _ & _ & Hres)|(err & _ & Hlog & _)]; [discriminate Hres|].
    simpl in Hlog. apply (f_equal length) in Hlog. rewrite length_app in Hlog.
    simpl in Hlog.
    assert (length (page_requests Mock.parseLinkHeader "acme" (inr ["1"; "2"]) None ps)
            = length ps) as Hlen.
    { clear. generalize (@None string).
      induction ps as [|r ps IH]; intros c; simpl; [reflexivity|].
      f_equal. apply IH. }
    rewrite Hlen in Hlog. simpl in Hlog. lia.
Defined.

Lemma keyed_reduce_lookup_witness :
  keyed_reduce [ {| project_id := "10"; transaction := "/a" |};
                 {| project_id := "11"; transaction := "/c" |};
                 {| project_id := "10"; transaction := "/b" |} ] !! "10"
  = Some {[ "/a"; "/b" ]}
  ∧ ({[ "/a"; "/b" ]} : gset string) ≠ ∅.
Proof.
  destruct (keyed_reduce_lookup
              [ {| project_id := "10"; transaction := "/a" |};
                {| project_id := "11"; transaction := "/c" |};
                {| project_id := "10"; transaction := "/b" |} ] "10") as [Hlookup Hne].
  split; [reflexivity|]. apply Hne. reflexivity.
Defined.

Lemma keyed_reduce_same_elements_witness :
  keyed_reduce [ {| project_id := "10"; transaction := "/a" |};
                 {| project_id := "10"; transaction := "/b" |};
                 {| project_id := "10"; transaction := "/a" |} ] =
  keyed_reduce [ {| project_id := "10"; transaction := "/b" |};
                 {| project_id := "10"; transaction := "/a" |} ].
Proof.
  apply keyed_reduce_same_elements. intros e.
  rewrite !elem_of_cons, elem_of_nil. naive_solver.
Defined.

End PerformanceFacts.

Module ManagerFacts.
Import Performance TeamKeyTransactionsManager.

Lemma toggle_team_other isKey project' name m teamId teamId' :
  teamId' ≠ teamId →
  toggle_team isKey project' name m teamId !! teamId' = m !! teamId'.
Proof.
  intros Hne. unfold toggle_team. rewrite lookup_alter_ne by done.
  case_decide; [done|]. by rewrite lookup_insert_ne.
Qed.

Lemma toggle_team_names isKey project' name m teamId :
  names_at (toggle_team isKey project' name m teamId) teamId (String_ project') =
  if isKey then names_at m teamId (String_ project') ∖ {[name]}
  else names_at m teamId (String_ project') ∪ {[name]}.
Proof.
  unfold names_at, toggle_team. rewrite lookup_alter_eq.
  destruct (decide (is_Some (m !! teamId))) as [[team Ht]|Ht].
  - rewrite Ht. simpl.
    rewrite lookup_alter_eq.
    destruct (decide (is_Some (team !! String_ project'))) as [[names Hn]|Hn].
    + rewrite Hn. done.
    + rewrite lookup_insert_eq. apply eq_None_not_Some in Hn. rewrite Hn. done.
  - rewrite lookup_insert_eq. apply eq_None_not_Some in Ht. rewrite Ht. simpl.
    rewrite lookup_alter_eq. rewrite decide_False by (rewrite lookup_empty; by intros [? ?]).
    rewrite lookup_insert_eq, lookup_empty. done.
Qed.

(** After the loop, every listed team has the toggled value. *)
Lemma toggle_teams_names isKey project' name teamIds m teamId :
  teamId ∈ teamIds →
  name ∈ names_at (toggle_teams isKey project' name teamIds m) teamId (String_ project')
  ↔ isKey = false.
Proof.
  unfold toggle_teams. induction teamIds as [|x teamIds IH] using rev_ind; [by intros ?%elem_of_nil|].
  intros Hin. rewrite foldl_app. simpl.
  destruct (decide (teamId = x)) as [->|Hne].
  - rewrite toggle_team_names. destruct isKey.
    + rewrite elem_of_difference, elem_of_singleton. naive_solver.
    + rewrite elem_of_union, elem_of_singleton. naive_solver.
  - unfold names_at. rewrite toggle_team_other by done.
    apply IH. by apply elem_of_app in Hin as [?|?%list_elem_of_singleton].
Qed.

Lemma toggle_team_other_project isKey project' name m teamId p' :
  p' ≠ String_ project' →
  names_at (toggle_team isKey project' name m teamId) teamId p' = names_at m teamId p'.
Proof.
  intros Hne. unfold names_at, toggle_team. rewrite lookup_alter_eq.
  destruct (decide (is_Some (m !! teamId))) as [[team Ht]|Ht].
  - rewrite Ht. simpl. rewrite lookup_alter_ne by done.
    case_decide; [done|]. by rewrite lookup_insert_ne.
  - rewrite lookup_insert_eq. apply eq_None_not_Some in Ht. rewrite Ht. simpl.
    rewrite lookup_alter_ne by done. case_decide; [done|].
    by rewrite lookup_insert_ne.
Qed.

(** One iteration touches one transaction name of one project of one team. *)
Lemma toggle_team_frame isKey project' name m teamId team' p' n' :
  team' ≠ teamId ∨ p' ≠ String_ project' ∨ n' ≠ name →
  n' ∈ names_at (toggle_team isKey project' name m teamId) team' p' ↔
  n' ∈ names_at m team' p'.
Proof.
  intros Hother. destruct (decide (team' = teamId)) as [->|Hteam].
  - destruct (decide (p' = String_ project')) as [->|Hp].
    + destruct Hother as [?|[?|Hn]]; [done..|].
      rewrite toggle_team_names. destruct isKey.
      * rewrite elem_of_difference, elem_of_singleton. naive_solver.
      * rewrite elem_of_union, elem_of_singleton. naive_solver.
    + by rewrite toggle_team_other_project.
  - unfold names_at. by rewrite toggle_team_other.
Qed.

Lemma toggle_teams_frame isKey project' name teamIds m team' p' n' :
  team' ∉ teamIds ∨ p' ≠ String_ project' ∨ n' ≠ name →
  n' ∈ names_at (toggle_teams isKey project' name teamIds m) team' p' ↔
  n' ∈ names_at m team' p'.
Proof.
  unfold toggle_teams. revert m. induction teamIds as [|x teamIds IH]; intros m Hother; [done|].
  cbn [foldl]. rewrite IH.
  - apply toggle_team_frame. destruct Hother as [Hnin|[?|?]]; [left|by right; left|by right; right].
    intros ->. apply Hnin. left.
  - destruct Hother as [Hnin|[?|?]]; [left|by right; left|by right; right].
    intros Hin. apply Hnin. by right.
Qed.

Lemma toggle_teams_other isKey project' name teamIds m team' :
  team' ∉ teamIds → toggle_teams isKey project' name teamIds m !! team' = m !! team'.
Proof.
  unfold toggle_teams. revert m. induction teamIds as [|x teamIds IH]; intros m Hnin; [done|].
  cbn [foldl]. rewrite IH by (intros ?; apply Hnin; by right).
  apply toggle_team_other. intros ->. apply Hnin. left.
Qed.

(** The entry of the toggled team after one iteration. *)
Lemma toggle_team_lookup isKey project' name m teamId :
  toggle_team isKey project' name m teamId !! teamId =
  Some (<[String_ project' :=
            if isKey
            then names_at m teamId (String_ project') ∖ {[name]}
            else names_at m teamId (String_ project') ∪ {[name]}]>
          (default ∅ (m !! teamId))).
Proof.
  unfold names_at, toggle_team. rewrite lookup_alter_eq.
  assert (∀ team : KeyTransactionPerProject,
            alter (λ transactionNames : TransactionNames,
                     if isKey then transactionNames ∖ {[name]}
                     else transactionNames ∪ {[name]})
                  (String_ project')
                  (if decide (is_Some (team !! String_ project')) then team
                   else <[String_ project' := ∅]> team) =
            <[String_ project' :=
                if isKey then default ∅ (team !! String_ project') ∖ {[name]}
                else default ∅ (team !! String_ project') ∪ {[name]}]> team) as Halter.
  { intros team. apply map_eq. intros p.
    destruct (decide (p = String_ project')) as [->|Hp].
    - rewrite lookup_alter_eq, lookup_insert_eq. case_decide as Hs.
      + destruct Hs as [names Hn]. by rewrite Hn.
      + rewrite lookup_insert_eq. apply eq_None_not_Some in Hs. by rewrite Hs.
    - rewrite lookup_alter_ne, lookup_insert_ne by done.
      case_decide; [done|]. by rewrite lookup_insert_ne. }
  destruct (decide (is_Some (m !! teamId))) as [[team Ht]|Ht].
  - rewrite Ht. simpl. by rewrite Halter.
  - rewrite lookup_insert_eq. apply eq_None_not_Some in Ht. rewrite Ht. simpl.
    by rewrite Halter.
Qed.

Lemma count_transactions_empty : count_transactions ∅ = 0.
Proof. unfold count_transactions. by rewrite map_fold_empty. Qed.

Lemma count_transactions_fresh (kts : KeyTransactionPerProject) p names :
  kts !! p = None →
  count_transactions (<[p := names]> kts) = count_transactions kts + size names.
Proof.
  intros Hp. unfold count_transactions.
  rewrite map_fold_insert_L; [done| |done]. intros. lia.
Qed.

(** Replacing the names of one project changes the count by the
    difference of the sizes. *)
Lemma count_transactions_insert (kts : KeyTransactionPerProject) p names :
  count_transactions (<[p := names]> kts) + size (default ∅ (kts !! p)) =
  count_transactions kts + size names.
Proof.
  destruct (kts !! p) as [old|] eqn:Hp.
  - change (default ∅ (Some old)) with old.
    rewrite <- (insert_delete_eq kts p names).
    rewrite count_transactions_fresh by apply lookup_delete_eq.
    rewrite <- (insert_delete_id kts p old) at 2 by done.
    rewrite count_transactions_fresh by apply lookup_delete_eq. lia.
  - change (default ∅ None) with (∅ : gset string).
    rewrite count_transactions_fresh by done. rewrite size_empty. lia.
Qed.

Lemma size_add_name (names : gset string) name :
  size (names ∪ {[name]}) = size names + (if decide (name ∈ names) then 0 else 1).
Proof.
  case_decide as Hin.
  - replace (names ∪ {[name]}) with names by set_solver. lia.
  - rewrite (size_union names {[name]}) by set_solver. by rewrite size_singleton.
Qed.

Lemma size_remove_name (names : gset string) name :
  size (names ∖ {[name]}) + (if decide (name ∈ names) then 1 else 0) = size names.
Proof.
  case_decide as Hin.
  - replace names with (names ∖ {[name]} ∪ {[name]}) at 2.
    + rewrite (size_union (names ∖ {[name]}) {[name]}) by set_solver.
      by rewrite size_singleton.
    + apply set_eq. intros x. rewrite elem_of_union, elem_of_difference, elem_of_singleton.
      destruct (decide (x = name)) as [->|]; naive_solver.
  - replace (names ∖ {[name]}) with names by set_solver. lia.
Qed.

Lemma forallb_imap {A} (f : nat → A → bool) (l : list A) :
  forallb id (imap f l) = true ↔ ∀ i x, l !! i = Some x → f i x = true.
Proof.
  revert f. induction l as [|a l IH]; intros f.
  - simpl. split; [|done]. intros _ i x Hi. by rewrite lookup_nil in Hi.
  - rewrite imap_cons. simpl. rewrite andb_true_iff, IH. split.
    + intros [H0 HS] [|i] x Hi; simpl in Hi; [by simplify_eq|]. by apply HS.
    + intros H. split; [by apply (H 0)|]. intros i x Hi. by apply (H (S i)).
Qed.

Section Facts.
Context {World : Type}.
Variable t : string → string.
Variable parseLinkHeader : string → gmap string Link.t.

(** When fetchTeamKeyTransactions rejects, fetchData stores the same
    message in the state, together with an empty map. *)
Lemma fetchData_rejected fuel (props : @Props World) c io' err :
  fetchTeamKeyTransactions t parseLinkHeader fuel (api props) (slug (organization props))
    (inr (selectedTeams props)) (io c) = Some (io', inl err) →
  ∃ c', fetchData t parseLinkHeader fuel props c = Some c' ∧
        error (state c') = Some (fetch_error_message t err) ∧
        isLoading (state c') = false ∧
        current c' = ∅ ∧
        io c' = io'.
Proof.
  intros H. unfold fetchData. simpl. rewrite H. eexists. split; [done|]. simpl.
  repeat split. unfold current. simpl. by rewrite lookup_insert_eq.
Qed.

(** C10. handleToggleKeyTransaction updates the Map object behind
    this.state.teamKeyTransactions in place before the request is made.
    When the request fails, the only effects of the failure are the error
    notification and the [error] field of the state: the state still
    refers to the same, already toggled, Map object, so getCounts and the
    recorded transaction names show the toggled value. *)
Theorem failed_toggle_is_not_rolled_back (props : @Props World) selection c m w err :
  heap c !! teamKeyTransactions (state c) = Some m →
  api props (world (io c)) (toggle_url (slug (organization props)))
      (toggle_options (isKeyTransaction selection) [project (selection_base selection)]
         (transactionName (selection_base selection))
         (Some (selection_teamIds props selection))) = (w, inl err) →
  let pending := toggle_in_place props selection c in
  let c' := handleToggleKeyTransaction t props selection c in
  let toggled :=
    toggle_teams (isKeyTransaction selection) (project (selection_base selection))
      (transactionName (selection_base selection)) (selection_teamIds props selection) m in
  (current pending = toggled ∧ io pending = io c) ∧
  teamKeyTransactions (state c') = teamKeyTransactions (state c) ∧
  current c' = toggled ∧
  getCounts c' = count_transactions <$> toggled ∧
  (∀ teamId, teamId ∈ selection_teamIds props selection →
     transactionName (selection_base selection)
       ∈ names_at (current c') teamId (String_ (project (selection_base selection)))
     ↔ action (selection_base selection) = key) ∧
  error (state c') = responseJSON err ≫= detail ∧
  keyFetchID (state c') = keyFetchID (state c) ∧
  isLoading (state c') = isLoading (state c) ∧
  world (io c') = w ∧
  log (io c') =
    log (io c) ++
    [AddLoadingMessage (t "Saving changes…");
     RequestPromise (toggle_url (slug (organization props)))
       (toggle_options (isKeyTransaction selection) [project (selection_base selection)]
          (transactionName (selection_base selection))
          (Some (selection_teamIds props selection)))
       (inl err);
     AddErrorMessage (toggle_error_message t err)].
Proof.
  intros Hm Hreq pending c' toggled.
  assert (current pending = toggled) as Hpending.
  { unfold current, pending, toggle_in_place, mutate. simpl.
    by rewrite lookup_alter_eq, Hm. }
  assert (c' = setState (λ st, {| keyFetchID := keyFetchID st; isLoading := isLoading st;
                                  error := Js.and_then (responseJSON err) detail;
                                  teamKeyTransactions := teamKeyTransactions st |})
                 (with_io {| world := w;
                             log := log (io c) ++
                               [AddLoadingMessage (t "Saving changes…");
                                RequestPromise (toggle_url (slug (organization props)))
                                  (toggle_options (isKeyTransaction selection)
                                     [project (selection_base selection)]
                                     (transactionName (selection_base selection))
                                     (Some (selection_teamIds props selection)))
                                  (inl err);
                                AddErrorMessage (toggle_error_message t err)] |}
                          pending)) as ->.
  { unfold c', handleToggleKeyTransaction. fold pending.
    destruct (PerformanceFacts.toggleKeyTransaction_run t (api props)
                (isKeyTransaction selection) (slug (organization props))
                [project (selection_base selection)]
                (transactionName (selection_base selection))
                (Some (selection_teamIds props selection)) (io pending))
      as (w' & outcome & Hreq' & ->).
    change (io pending) with (io c) in Hreq'. rewrite Hreq in Hreq'. by simplify_eq. }
  assert (current (setState (λ st, {| keyFetchID := keyFetchID st; isLoading := isLoading st;
                                      error := Js.and_then (responseJSON err) detail;
                                      teamKeyTransactions := teamKeyTransactions st |})
                     (with_io {| world := w;
                             log := log (io c) ++
                               [AddLoadingMessage (t "Saving changes…");
                                RequestPromise (toggle_url (slug (organization props)))
                                  (toggle_options (isKeyTransaction selection)
                                     [project (selection_base selection)]
                                     (transactionName (selection_base selection))
                                     (Some (selection_teamIds props selection)))
                                  (inl err);
                                AddErrorMessage (toggle_error_message t err)] |} pending)) = toggled) as Hcur.
  { exact Hpending. }
  split; [done|]. split; [done|]. split; [done|].
  split; [unfold getCounts; by rewrite Hcur|].
  split.
  { intros teamId Hin. rewrite Hcur. unfold toggled.
    rewrite toggle_teams_names by done. unfold isKeyTransaction.
    destruct (action (selection_base selection)); split; congruence. }
  by destruct (responseJSON err).
Qed.

(** *** Further properties of the provider *)

Lemma selectedTeamsChanged_spec (prev cur : list string) :
  selectedTeamsChanged prev cur = true ↔
  length prev ≠ length cur ∨
  ∀ i teamId, prev !! i = Some teamId → cur !! i ≠ Some teamId.
Proof.
  unfold selectedTeamsChanged. rewrite orb_true_iff, negb_true_iff, Nat.eqb_neq.
  rewrite forallb_imap. split.
  - intros [?|H]; [by left|right]. intros i teamId Hi.
    exact (bool_decide_eq_true_1 _ (H i teamId Hi)).
  - intros [?|H]; [by left|right]. intros i teamId Hi.
    exact (bool_decide_eq_true_2 _ (H i teamId Hi)).
Qed.

(** The test of [componentDidUpdate], in words. *)
Lemma refetch_test_spec (prevProps props : @Props World) :
  orgSlugChanged prevProps props
  || selectedTeamsChanged (selectedTeams prevProps) (selectedTeams props) = true
  ↔ slug (organization prevProps) ≠ slug (organization props) ∨
    length (selectedTeams prevProps) ≠ length (selectedTeams props) ∨
    ∀ i teamId, selectedTeams prevProps !! i = Some teamId →
                selectedTeams props !! i ≠ Some teamId.
Proof using Type.
  unfold orgSlugChanged.
  rewrite orb_true_iff, negb_true_iff, String.eqb_neq, selectedTeamsChanged_spec. done.
Qed.

(** X6. componentDidUpdate fetches again exactly when the organization
    slug changed, the number of selected teams changed, or the selected
    teams differ at every position; otherwise it does nothing. *)
Theorem refetch_on_update (prevProps props : @Props World) fuel c :
  let refetch :=
    slug (organization prevProps) ≠ slug (organization props) ∨
    length (selectedTeams prevProps) ≠ length (selectedTeams props) ∨
    ∀ i teamId, selectedTeams prevProps !! i = Some teamId →
                selectedTeams props !! i ≠ Some teamId in
  (refetch → componentDidUpdate t parseLinkHeader fuel prevProps props c =
             fetchData t parseLinkHeader fuel props c) ∧
  (¬ refetch → componentDidUpdate t parseLinkHeader fuel prevProps props c = Some c).
Proof.
  intros refetch. unfold componentDidUpdate.
  assert (orgSlugChanged prevProps props
          || selectedTeamsChanged (selectedTeams prevProps) (selectedTeams props) = true
          ↔ refetch) as Hiff.
  { unfold refetch, orgSlugChanged.
    rewrite orb_true_iff, negb_true_iff, String.eqb_neq, selectedTeamsChanged_spec. done. }
  destruct (orgSlugChanged prevProps props
            || selectedTeamsChanged (selectedTeams prevProps) (selectedTeams props)).
  - split; [done|]. intros Hn. exfalso. by apply Hn, Hiff.
  - split; [|done]. intros Hr. by apply Hiff in Hr.
Qed.

(** X7. Two consequences of that test.  While no team is selected every
    update fetches again, even with unchanged props; and a change of the
    selected teams that keeps their number and leaves one position as it
    was is not noticed. *)
Theorem refetch_edge_cases (prevProps props : @Props World) fuel c :
  (selectedTeams prevProps = [] → selectedTeams props = [] →
   componentDidUpdate t parseLinkHeader fuel prevProps props c =
   fetchData t parseLinkHeader fuel props c) ∧
  (slug (organization prevProps) = slug (organization props) →
   length (selectedTeams prevProps) = length (selectedTeams props) →
   (∃ i teamId, selectedTeams prevProps !! i = Some teamId ∧
                selectedTeams props !! i = Some teamId) →
   componentDidUpdate t parseLinkHeader fuel prevProps props c = Some c).
Proof.
  unfold componentDidUpdate. split.
  - intros Hprev Hcur. rewrite (proj2 (refetch_test_spec prevProps props)); [done|].
    right. right. intros i teamId Hi. rewrite Hprev in Hi. by rewrite lookup_nil in Hi.
  - intros Hslug Hlen (i & teamId & Hprev & Hcur).
    destruct (orgSlugChanged prevProps props
              || selectedTeamsChanged (selectedTeams prevProps) (selectedTeams props))
      eqn:Htest; [|done].
    apply refetch_test_spec in Htest as [?|[?|Hall]]; [done..|].
    by destruct (Hall i teamId).
Qed.

(** What the state refers to after a toggle, whatever the request did. *)
Lemma handleToggleKeyTransaction_current (props : @Props World) selection c m :
  heap c !! teamKeyTransactions (state c) = Some m →
  current (handleToggleKeyTransaction t props selection c) =
  toggle_teams (isKeyTransaction selection) (project (selection_base selection))
    (transactionName (selection_base selection)) (selection_teamIds props selection) m.
Proof.
  intros Hm. unfold handleToggleKeyTransaction.
  destruct (toggleKeyTransaction _ _ _ _ _ _ _ _) as [io' [err|r]];
    unfold current; simpl; by rewrite lookup_alter_eq, Hm.
Qed.

Lemma getKeyedTeams_spec (c : @Instance World) project' name teamId :
  teamId ∈ getKeyedTeams c project' name ↔ name ∈ names_at (current c) teamId project'.
Proof.
  unfold getKeyedTeams, names_at. rewrite elem_of_dom. unfold is_Some.
  setoid_rewrite map_lookup_filter_Some. simpl.
  destruct (current c !! teamId) as [kts|]; simpl.
  - split; [by intros (? & [= <-] & ?)|]. intros ?. by exists kts.
  - rewrite lookup_empty. simpl. split; [by intros (? & ? & _)|]. by intros ?%not_elem_of_empty.
Qed.

(** X8. After handleToggleKeyTransaction, whether the request succeeded
    or failed, getKeyedTeams for the toggled project and transaction
    contains every team of the selection when the action was 'key' and
    none of them when it was 'unkey'. *)
Theorem toggled_teams_are_keyed (props : @Props World) selection c m teamId :
  heap c !! teamKeyTransactions (state c) = Some m →
  teamId ∈ selection_teamIds props selection →
  teamId ∈ getKeyedTeams (handleToggleKeyTransaction t props selection c)
             (String_ (project (selection_base selection)))
             (transactionName (selection_base selection))
  ↔ action (selection_base selection) = key.
Proof.
  intros Hm Hin. rewrite getKeyedTeams_spec, (handleToggleKeyTransaction_current _ _ _ m Hm).
  rewrite toggle_teams_names by done. unfold isKeyTransaction.
  destruct (action (selection_base selection)); split; congruence.
Qed.

(** X9. A toggle changes nothing else: for every team outside the
    selection, every other project and every other transaction name, the
    recorded names are as before, and a team outside the selection keeps
    its very entry. *)
Theorem toggle_leaves_the_rest (props : @Props World) selection c m :
  heap c !! teamKeyTransactions (state c) = Some m →
  let c' := handleToggleKeyTransaction t props selection c in
  (∀ teamId project' name,
     teamId ∉ selection_teamIds props selection ∨
     project' ≠ String_ (project (selection_base selection)) ∨
     name ≠ transactionName (selection_base selection) →
     teamId ∈ getKeyedTeams c' project' name ↔ teamId ∈ getKeyedTeams c project' name) ∧
  (∀ teamId, teamId ∉ selection_teamIds props selection →
     current c' !! teamId = current c !! teamId ∧
     getCounts c' !! teamId = getCounts c !! teamId).
Proof.
  intros Hm c'. assert (current c = m) as Hcur by (unfold current; by rewrite Hm).
  split.
  - intros teamId project' name Hother. rewrite !getKeyedTeams_spec.
    unfold c'. rewrite (handleToggleKeyTransaction_current _ _ _ m Hm), Hcur.
    by apply toggle_teams_frame.
  - intros teamId Hnin. unfold getCounts, c'.
    rewrite !lookup_fmap, (handleToggleKeyTransaction_current _ _ _ m Hm), Hcur.
    by rewrite toggle_teams_other.
Qed.

(** X10. The count shown for a team after a toggle for that one team:
    keying a transaction adds one unless it was keyed already, unkeying
    removes one if it was keyed; a team without an entry counts as 0
    before and has an entry afterwards. *)
Theorem toggle_updates_count (props : @Props World) base teamId c m :
  heap c !! teamKeyTransactions (state c) = Some m →
  let c' := handleToggleKeyTransaction t props (TeamIdSelection base teamId) c in
  let before := default 0 (getCounts c !! teamId) in
  let keyed := names_at m teamId (String_ (project base)) in
  ∃ after,
    getCounts c' !! teamId = Some after ∧
    match action base with
    | key => after = before + (if decide (transactionName base ∈ keyed) then 0 else 1)
    | unkey => after + (if decide (transactionName base ∈ keyed) then 1 else 0) = before
    end.
Proof.
  intros Hm c' before keyed.
  assert (current c = m) as Hcur by (unfold current; by rewrite Hm).
  assert (before = count_transactions (default ∅ (m !! teamId))) as Hbefore.
  { unfold before, getCounts. rewrite lookup_fmap, Hcur.
    destruct (m !! teamId); simpl; [done|]. by rewrite count_transactions_empty. }
  unfold getCounts, c'.
  rewrite lookup_fmap, (handleToggleKeyTransaction_current _ _ _ m Hm).
  change (toggle_teams _ _ _ _ m) with
    (toggle_team (isKeyTransaction (TeamIdSelection base teamId)) (project base)
       (transactionName base) m teamId).
  rewrite toggle_team_lookup. simpl. eexists. split; [done|].
  pose proof (count_transactions_insert (default ∅ (m !! teamId)) (String_ (project base))) as Hcount.
  fold (names_at m teamId (String_ (project base))) in Hcount. fold keyed in Hcount |- *.
  unfold isKeyTransaction. simpl. destruct (action base).
  - specialize (Hcount (keyed ∪ {[transactionName base]})).
    rewrite size_add_name in Hcount. lia.
  - specialize (Hcount (keyed ∖ {[transactionName base]})).
    pose proof (size_remove_name keyed (transactionName base)). lia.
Qed.

Lemma toggleKeyTransactionForMyTeams_spec (props : @Props World) teamId :
  teamId ∈ toggleKeyTransactionForMyTeams props ↔
  ∃ team, team ∈ teams props ∧ Team.isMember team = true ∧ Team.id team = teamId.
Proof using Type.
  unfold toggleKeyTransactionForMyTeams. rewrite list_elem_of_fmap. split.
  - intros (team & -> & Hin). apply list_elem_of_filter in Hin as [? ?]. by exists team.
  - intros (team & Hin & Hmember & <-). exists team. split; [done|].
    by apply list_elem_of_filter.
Qed.

(** X11. A 'my teams' selection acts on exactly the teams the user is a
    member of: after keying, each of them is among the keyed teams, and
    the entry of any team that is not the id of a member team is left as
    it was. *)
Theorem my_teams_selection_toggles_member_teams (props : @Props World) base c m :
  heap c !! teamKeyTransactions (state c) = Some m →
  action base = key →
  let c' := handleToggleKeyTransaction t props (MyTeamSelection base) c in
  (∀ team, team ∈ teams props → Team.isMember team = true →
     Team.id team ∈ getKeyedTeams c' (String_ (project base)) (transactionName base)) ∧
  (∀ teamId,
     (∀ team, team ∈ teams props → Team.isMember team = true → Team.id team ≠ teamId) →
     current c' !! teamId = current c !! teamId).
Proof.
  intros Hm Hkey c'. split.
  - intros team Hin Hmember. unfold c'.
    rewrite getKeyedTeams_spec, (handleToggleKeyTransaction_current _ _ _ m Hm).
    apply toggle_teams_names.
    + apply toggleKeyTransactionForMyTeams_spec. by exists team.
    + unfold isKeyTransaction. simpl. by rewrite Hkey.
  - intros teamId Hnot. unfold c'.
    rewrite (handleToggleKeyTransaction_current _ _ _ m Hm).
    replace (current c) with m by (unfold current; by rewrite Hm).
    apply toggle_teams_other.
    intros (team & ? & ? & ?)%toggleKeyTransactionForMyTeams_spec. by apply (Hnot team).
Qed.

(** X12. When the fetch fails, fetchData replaces whatever had been
    loaded by an empty map and stores the error message: nothing is
    keyed any more and the counts are empty, while the Map objects that
    existed before are left untouched. *)
Theorem failed_fetch_discards_loaded_data fuel (props : @Props World) c io' err :
  fetchTeamKeyTransactions t parseLinkHeader fuel (api props) (slug (organization props))
    (inr (selectedTeams props)) (io c) = Some (io', inl err) →
  ∃ c', fetchData t parseLinkHeader fuel props c = Some c' ∧
        error (state c') = Some (fetch_error_message t err) ∧
        isLoading (state c') = false ∧
        keyFetchID (state c') = None ∧
        getCounts c' = ∅ ∧
        (∀ project' name, getKeyedTeams c' project' name = ∅) ∧
        (∀ ref, ref < fresh c → heap c' !! ref = heap c !! ref).
Proof.
  intros H. unfold fetchData. simpl. rewrite H. eexists. split; [done|].
  unfold getCounts, getKeyedTeams, current. simpl. rewrite lookup_insert_eq. simpl.
  split; [done|]. split; [done|]. split; [done|]. split; [|split].
  - apply fmap_empty.
  - intros project' name. rewrite map_filter_empty. apply dom_empty_L.
  - intros ref Href. rewrite lookup_insert_ne by lia. done.
Qed.

(** X13. When the fetch succeeds, fetchData makes the state refer to a
    new Map object holding the fetched map and clears the error; the Map
    objects that existed before are left untouched. *)
Theorem successful_fetch_installs_map fuel (props : @Props World) c io' fetched :
  fetchTeamKeyTransactions t parseLinkHeader fuel (api props) (slug (organization props))
    (inr (selectedTeams props)) (io c) = Some (io', inr fetched) →
  ∃ c', fetchData t parseLinkHeader fuel props c = Some c' ∧
        current c' = fetched ∧
        getCounts c' = count_transactions <$> fetched ∧
        error (state c') = None ∧
        isLoading (state c') = false ∧
        fresh c ≤ teamKeyTransactions (state c') ∧
        (∀ ref, ref < fresh c → heap c' !! ref = heap c !! ref).
Proof.
  intros H. unfold fetchData. simpl. rewrite H. eexists. split; [done|].
  unfold getCounts, current. simpl. rewrite lookup_insert_eq. simpl.
  split; [done|]. split; [done|]. split; [done|]. split; [done|]. split; [lia|].
  intros ref Href. by rewrite !lookup_insert_ne by lia.
Qed.

(** X25. A toggle makes exactly one request: POST for the action 'key'
    and DELETE for 'unkey', with the project as the only query parameter
    and the transaction name and the teams of the selection as data.  It
    is followed by one notification, and after a success the error
    stored in the state is left as it was. *)
Theorem toggle_sends_one_request (props : @Props World) selection c :
  let c' := handleToggleKeyTransaction t props selection c in
  let base := selection_base selection in
  let opts :=
    {| method := match action base with key => POST | unkey => DELETE end;
       includeAllArgs := false;
       query := [("project", PStrings [String_ (project base)])];
       body := [("transaction", PString (transactionName base));
                ("team", PStrings (selection_teamIds props selection))] |} in
  ∃ w outcome,
    api props (world (io c)) (toggle_url (slug (organization props))) opts = (w, outcome) ∧
    world (io c') = w ∧
    log (io c') =
      log (io c) ++
      [AddLoadingMessage (t "Saving changes…");
       RequestPromise (toggle_url (slug (organization props))) opts outcome;
       match outcome with
       | inl response => AddErrorMessage (toggle_error_message t response)
       | inr _ => ClearIndicators
       end] ∧
    (∀ response, outcome = inr response → error (state c') = error (state c)).
Proof.
  intros c' base opts. subst base.
  destruct (PerformanceFacts.toggleKeyTransaction_run t (api props)
              (isKeyTransaction selection) (slug (organization props))
              [project (selection_base selection)]
              (transactionName (selection_base selection))
              (Some (selection_teamIds props selection))
              (io (toggle_in_place props selection c)))
    as (w & outcome & Hreq & Hrun).
  assert (toggle_options (isKeyTransaction selection) [project (selection_base selection)]
            (transactionName (selection_base selection))
            (Some (selection_teamIds props selection)) = opts) as Hopts.
  { unfold toggle_options, opts, isKeyTransaction.
    by destruct (action (selection_base selection)). }
  rewrite Hopts in Hreq, Hrun. exists w, outcome. split; [exact Hreq|].
  unfold c', handleToggleKeyTransaction. rewrite Hrun.
  destruct outcome as [err|r]; simpl; (split; [done|]); (split; [done|]).
  - by intros response.
  - by intros response _.
Qed.

End Facts.

Lemma failed_toggle_is_not_rolled_back_witness :
  getCounts MockProvider.mounted = ∅ ∧
  getCounts (handleToggleKeyTransaction Mock.t MockProvider.failing
               MockProvider.key_for_team_1 MockProvider.mounted) = {[ "1" := 1 ]} ∧
  error (state (handleToggleKeyTransaction Mock.t MockProvider.failing
                  MockProvider.key_for_team_1 MockProvider.mounted)) = None.
Proof.
  destruct (failed_toggle_is_not_rolled_back Mock.t MockProvider.failing
              MockProvider.key_for_team_1 MockProvider.mounted ∅ 1 Mock.plain_error)
    as (_ & _ & _ & Hcounts & _ & Herror & _).
  - reflexivity.
  - reflexivity.
  - split; [reflexivity|]. split; [|exact Herror].
    rewrite Hcounts. vm_compute. reflexivity.
Defined.

Lemma refetch_on_update_witness :
  componentDidUpdate Mock.t Mock.parseLinkHeader 2 MockProvider.failing MockProvider.working
    MockProvider.mounted = Some MockProvider.mounted.
Proof.
  apply (refetch_on_update Mock.t Mock.parseLinkHeader MockProvider.failing
           MockProvider.working 2 MockProvider.mounted).
  intros [H|[H|H]].
  - by apply H.
  - by apply H.
  - by apply (H 0 "1").
Defined.

Lemma refetch_edge_cases_witness :
  componentDidUpdate Mock.t Mock.parseLinkHeader 2 MockProvider.working
    MockProvider.reselected MockProvider.mounted = Some MockProvider.mounted.
Proof.
  apply (refetch_edge_cases Mock.t Mock.parseLinkHeader MockProvider.working
           MockProvider.reselected 2 MockProvider.mounted).
  - reflexivity.
  - reflexivity.
  - exists 0, "1". split; reflexivity.
Defined.

Lemma toggled_teams_are_keyed_witness :
  "1" ∈ getKeyedTeams
          (handleToggleKeyTransaction Mock.t MockProvider.failing
             MockProvider.key_for_team_1 MockProvider.mounted) "10" "/a".
Proof.
  apply (toggled_teams_are_keyed Mock.t MockProvider.failing MockProvider.key_for_team_1
           MockProvider.mounted ∅ "1").
  - reflexivity.
  - left.
  - reflexivity.
Defined.

Lemma toggle_leaves_the_rest_witness :
  current (handleToggleKeyTransaction Mock.t MockProvider.failing
             MockProvider.key_for_my_teams MockProvider.loaded) !! "2" = None.
Proof.
  destruct (toggle_leaves_the_rest Mock.t MockProvider.failing MockProvider.key_for_my_teams
              MockProvider.loaded {[ "1" := {[ "10" := {[ "/a" ]} ]} ]}) as [_ Hrest].
  - reflexivity.
  - destruct (Hrest "2") as [Hentry _].
    + intros Hin. apply list_elem_of_singleton in Hin. discriminate Hin.
    + rewrite Hentry. reflexivity.
Defined.

Lemma toggle_updates_count_witness :
  getCounts (handleToggleKeyTransaction Mock.t MockProvider.failing
               MockProvider.unkey_for_team_1 MockProvider.loaded) !! "1" = Some 0.
Proof.
  destruct (toggle_updates_count Mock.t MockProvider.failing
              {| action := unkey; project := 10; transactionName := "/a" |} "1"
              MockProvider.loaded {[ "1" := {[ "10" := {[ "/a" ]} ]} ]})
    as (after & Hget & Hafter).
  - reflexivity.
  - unfold MockProvider.unkey_for_team_1. rewrite Hget. f_equal.
    assert (after + 1 = 1) as Hone by exact Hafter. lia.
Defined.

Lemma my_teams_selection_toggles_member_teams_witness :
  "1" ∈ getKeyedTeams
          (handleToggleKeyTransaction Mock.t MockProvider.failing
             MockProvider.key_for_my_teams MockProvider.loaded) "10" "/b".
Proof.
  destruct (my_teams_selection_toggles_member_teams Mock.t MockProvider.failing
              {| action := key; project := 10; transactionName := "/b" |}
              MockProvider.loaded {[ "1" := {[ "10" := {[ "/a" ]} ]} ]}) as [Hmember _].
  - reflexivity.
  - reflexivity.
  - apply (Hmember {| Team.id := "1"; Team.isMember := true |}); [left|reflexivity].
Defined.

Lemma failed_fetch_discards_loaded_data_witness :
  ∃ c', fetchData Mock.t Mock.parseLinkHeader 1 MockProvider.failing MockProvider.loaded
        = Some c' ∧
        getCounts c' = ∅ ∧
        error (state c') = Some "Error fetching team key transactions".
Proof.
  destruct (failed_fetch_discards_loaded_data Mock.t Mock.parseLinkHeader 1
              MockProvider.failing MockProvider.loaded
              {| world := 1;
                 log := [RequestPromise (list_url "acme")
                           (list_options None (inr ["1"; "2"])) (inl Mock.plain_error);
                         AddErrorMessage "Error fetching team key transactions"] |}
              Mock.plain_error) as (c' & Hrun & Herror & _ & _ & Hcounts & _).
  - reflexivity.
  - exists c'. split; [exact Hrun|]. split; [exact Hcounts|exact Herror].
Defined.

Lemma successful_fetch_installs_map_witness :
  ∃ c', fetchData Mock.t Mock.parseLinkHeader 2 MockProvider.working MockProvider.mounted
        = Some c' ∧
        current c' = accumulate [Mock.page1; Mock.page2] ∅ ∧
        error (state c') = None.
Proof.
  destruct (successful_fetch_installs_map Mock.t Mock.parseLinkHeader 2
              MockProvider.working MockProvider.mounted
              {| world := 2;
                 log := [RequestPromise (list_url "acme")
                           (list_options None (inr ["1"; "2"])) (inr Mock.page1);
                         RequestPromise (list_url "acme")
                           (list_options (Some "0:100:0") (inr ["1"; "2"]))
                           (inr Mock.page2)] |}
              (accumulate [Mock.page1; Mock.page2] ∅))
    as (c' & Hrun & Hcur & _ & Herror & _).
  - reflexivity.
  - exists c'. split; [exact Hrun|]. split; [exact Hcur|exact Herror].
Defined.

End ManagerFacts.

Module EventsChartFacts.
Import EventsChart.

Lemma includes_spec l x : includes l x = true ↔ x ∈ l.
Proof. unfold includes. apply bool_decide_eq_true. Qed.

Lemma disableable_spec props key :
  disableable props key = true ↔
  key = "Releases" ∨ key = "Other" ∨ key ∈ default [] (disableableSeries props).
Proof.
  unfold disableable. rewrite orb_true_iff, !includes_spec.
  rewrite !elem_of_cons, elem_of_nil. naive_solver.
Qed.

Lemma reduce_lookup props (selected' state : gmap string bool) keys key :
  foldl (reduce_step props selected') state keys !! key =
  if decide (key ∈ keys)
  then Some (if disableable props key then selected' !!! key else true)
  else state !! key.
Proof.
  revert state. induction keys as [|k keys IH]; intros state.
  - case_decide as Hin; [by apply elem_of_nil in Hin|done].
  - cbn [foldl]. rewrite IH.
    destruct (decide (key ∈ keys)) as [Hin|Hnin].
    + by rewrite decide_True by (by right).
    + unfold reduce_step. destruct (decide (key = k)) as [->|Hne].
      * rewrite decide_True by left. by rewrite lookup_insert_eq.
      * rewrite decide_False by (by intros [?|?]%elem_of_cons).
        by rewrite lookup_insert_ne.
Qed.

Lemma Object_keys_spec {V} (o : gmap string V) key : key ∈ Object_keys o ↔ is_Some (o !! key).
Proof.
  unfold Object_keys. rewrite list_elem_of_fmap. split.
  - intros ([k v] & -> & Hin). apply elem_of_map_to_list in Hin. by exists v.
  - intros [v Hv]. exists (key, v). split; [done|]. by apply elem_of_map_to_list.
Qed.

(** C7. For every legend change event, the new seriesSelection has the
    keys of the event's [selected] map; a series named 'Releases' or
    'Other' or listed in the disableableSeries prop keeps the state the
    user chose, and every other series is set to true. *)
Theorem legend_only_disables_allowed_series props legendChange st key :
  let after := (handleLegendSelectChanged props legendChange st).2 in
  let listed := key = "Releases" ∨ key = "Other" ∨ key ∈ default [] (disableableSeries props) in
  (listed → seriesSelection after !! key = selected legendChange !! key) ∧
  (¬ listed → seriesSelection after !! key = (λ _, true) <$> selected legendChange !! key) ∧
  seriesSelection (handleLegendSelectChanged props legendChange st).1 = seriesSelection after ∧
  forceUpdate after = false.
Proof.
  simpl. unfold new_seriesSelection.
  rewrite reduce_lookup, lookup_empty.
  pose proof (Object_keys_spec (selected legendChange) key) as Hkeys.
  pose proof (disableable_spec props key) as Hdis.
  split; [|split; [|done]].
  - intros Hlisted. apply Hdis in Hlisted. rewrite Hlisted.
    destruct (selected legendChange !! key) as [v|] eqn:Hv.
    + rewrite decide_True by (apply Hkeys; eauto).
      by rewrite (lookup_total_correct _ _ _ Hv).
    + rewrite decide_False; [done|]. rewrite Hkeys. by intros [? ?].
  - intros Hnot. destruct (disableable props key) eqn:E; [exfalso; apply Hnot; by apply Hdis|].
    destruct (selected legendChange !! key) as [v|] eqn:Hv; simpl.
    + by rewrite decide_True by (apply Hkeys; eauto).
    + rewrite decide_False; [done|]. rewrite Hkeys. by intros [? ?].
Qed.

Lemma legend_only_disables_allowed_series_witness :
  seriesSelection
    (handleLegendSelectChanged MockChart.props MockChart.all_off MockChart.before).2
    !! "count()" = Some true.
Proof.
  destruct (legend_only_disables_allowed_series MockChart.props MockChart.all_off
              MockChart.before "count()") as (_ & Hforced & _).
  rewrite Hforced.
  - reflexivity.
  - intros [H|[H|H]]; [discriminate H|discriminate H|].
    simpl in H. apply list_elem_of_singleton in H. discriminate H.
Defined.

(** *** Further properties of the chart *)

Lemma new_seriesSelection_lookup props legendChange key :
  is_Some (new_seriesSelection props legendChange !! key) ↔
  is_Some (selected legendChange !! key).
Proof.
  unfold new_seriesSelection. rewrite reduce_lookup, lookup_empty.
  rewrite <- Object_keys_spec. case_decide as Hin; split.
  - by intros _.
  - intros _. eauto.
  - by intros [? ?].
  - by intros ?.
Qed.

Lemma Object_keys_nil {V} (o : gmap string V) :
  length (Object_keys o) = 0 ↔ o = ∅.
Proof.
  unfold Object_keys. rewrite length_fmap. split.
  - intros H. apply map_to_list_empty_iff. by apply nil_length_inv.
  - intros ->. by rewrite map_to_list_empty.
Qed.

Section UpdateFacts.
Context {Series TableData : Type} `{EqDecision Series} `{EqDecision TableData}.
Variable markLineData : Series → option nat.
Variable RELEASE_LINES_THRESHOLD : nat.
Variable t : string → string.

(** X19. A legend change renders the chart exactly once more: the update
    that carries the new selection always renders, whatever the props
    and even if the selection map is unchanged, and the update that
    only resets forceUpdate does not render when the props are the
    same. *)
Theorem legend_change_forces_one_render
    (props nextProps : @DataProps Series TableData) chartProps legendChange st :
  let updates := handleLegendSelectChanged chartProps legendChange st in
  shouldComponentUpdate props nextProps st updates.1 = true ∧
  shouldComponentUpdate nextProps nextProps updates.1 updates.2 = false.
Proof using Type.
  simpl. split; [done|]. unfold shouldComponentUpdate, isEqual. simpl.
  rewrite bool_decide_eq_true_2 by done. simpl.
  destruct (reloading nextProps || _); [done|].
  by rewrite !(bool_decide_eq_true_2 (_ = _)) by done.
Qed.

(** X20. Releases are hidden by default only as long as the legend has
    not been used.  With the initial, empty selection the legend
    switches the releases off exactly when there are release series and
    the first of them has at least RELEASE_LINES_THRESHOLD lines, and
    selects nothing otherwise; after a legend change that lists at least
    one series, the legend shows the selection computed by the
    handler. *)
Theorem releases_hidden_until_legend_is_used
    (props : @DataProps Series TableData) chartProps legendChange st :
  let initial := {| seriesSelection := ∅; forceUpdate := false |} in
  let many_lines :=
    ∃ first rest lines,
      releaseSeries props = Some (first :: rest) ∧
      markLineData first = Some lines ∧
      RELEASE_LINES_THRESHOLD ≤ lines in
  (many_lines →
   legend_selected markLineData RELEASE_LINES_THRESHOLD t props initial =
   {[ t "Releases" := false ]}) ∧
  (¬ many_lines →
   legend_selected markLineData RELEASE_LINES_THRESHOLD t props initial = ∅) ∧
  (selected legendChange ≠ ∅ →
   legend_selected markLineData RELEASE_LINES_THRESHOLD t props
     (handleLegendSelectChanged chartProps legendChange st).2 =
   new_seriesSelection chartProps legendChange).
Proof using Type.
  intros initial many_lines.
  assert (legend_selected markLineData RELEASE_LINES_THRESHOLD t props initial =
          if hideReleasesByDefault markLineData RELEASE_LINES_THRESHOLD props
          then {[ t "Releases" := false ]} else ∅) as Hinitial.
  { unfold legend_selected, hideReleasesByDefault. simpl.
    destruct (releaseSeries props) as [rs|]; [|done].
    rewrite bool_decide_eq_true_2; [done|]. by apply Object_keys_nil. }
  split; [|split].
  - intros (first & rest & lines & Hrs & Hlines & Hmany). rewrite Hinitial.
    unfold hideReleasesByDefault. rewrite Hrs. simpl. rewrite Hlines.
    by rewrite bool_decide_eq_true_2.
  - intros Hfew. rewrite Hinitial. unfold hideReleasesByDefault.
    destruct (releaseSeries props) as [[|first rest]|] eqn:Hrs; simpl; [done| |done].
    destruct (markLineData first) as [lines|] eqn:Hlines; [|done].
    case_bool_decide as Hmany; [|done].
    exfalso. apply Hfew. by exists first, rest, lines.
  - intros Hne. unfold legend_selected. simpl.
    destruct (releaseSeries props) as [rs|]; [|done].
    rewrite bool_decide_eq_false_2; [done|].
    rewrite Object_keys_nil. intros Hempty. apply Hne.
    apply map_eq. intros key. rewrite lookup_empty.
    apply eq_None_not_Some. rewrite <- (new_seriesSelection_lookup chartProps).
    rewrite Hempty, lookup_empty. by intros [? ?].
Qed.

End UpdateFacts.

(** X21. A series name derived from a y-axis is at most 63 UTF-16 code
    units long; a name that is not an equation and has at most 60 code
    units is kept as it is, whatever characters it is made of, and a
    longer one is cut to its first 60 code units followed by three
    dots. *)
Theorem yAxisSeriesName_is_bounded isEquation getEquation name :
  let label := yAxisSeriesName isEquation getEquation name in
  length label ≤ 63 ∧
  (isEquation name = false → length name ≤ 60 → label = name) ∧
  (isEquation name = false → 60 < length name →
   label = take 60 name ++ [46; 46; 46]%N).
Proof.
  simpl. unfold yAxisSeriesName.
  set (yAxisLabel := if nonempty name && isEquation name
                     then getEquation name else name).
  split; [|split].
  - destruct (nonempty yAxisLabel && (60 <? length yAxisLabel)) eqn:Hlong.
    + unfold substr. rewrite length_app, length_take, length_drop.
      change (length (code_units "...")) with 3. lia.
    + apply andb_false_iff in Hlong as [Hempty|Hshort].
      * destruct yAxisLabel; [simpl; lia|done].
      * apply Nat.ltb_ge in Hshort. lia.
  - intros Heq Hshort. unfold yAxisLabel. rewrite Heq, andb_false_r.
    apply Nat.ltb_ge in Hshort. by rewrite Hshort, andb_false_r.
  - intros Heq Hlong. unfold yAxisLabel. rewrite Heq, andb_false_r.
    pose proof Hlong as Hltb. apply Nat.ltb_lt in Hltb. rewrite Hltb.
    destruct name; [simpl in Hlong; lia|done].
Qed.

Lemma releases_hidden_until_legend_is_used_witness :
  legend_selected (λ lines : nat, Some lines) 200 Mock.t MockChart.many_releases
    {| seriesSelection := ∅; forceUpdate := false |} = {[ "Releases" := false ]}
  ∧ legend_selected (λ lines : nat, Some lines) 200 Mock.t MockChart.few_releases
      {| seriesSelection := ∅; forceUpdate := false |} = ∅
  ∧ legend_selected (λ lines : nat, Some lines) 200 Mock.t MockChart.many_releases
      (handleLegendSelectChanged MockChart.props MockChart.all_off MockChart.before).2
    = {[ "Releases" := false; "p50()" := false; "count()" := true ]}.
Proof.
  split; [|split].
  - apply (releases_hidden_until_legend_is_used (λ lines : nat, Some lines) 200 Mock.t
             MockChart.many_releases MockChart.props MockChart.all_off MockChart.before).
    exists 250, [], 250. split; [reflexivity|]. split; [reflexivity|]. lia.
  - apply (releases_hidden_until_legend_is_used (λ lines : nat, Some lines) 200 Mock.t
             MockChart.few_releases MockChart.props MockChart.all_off MockChart.before).
    intros (first & rest & lines & Hrs & Hlines & Hmany).
    injection Hrs as <- <-. injection Hlines as <-. lia.
  - destruct (releases_hidden_until_legend_is_used (λ lines : nat, Some lines) 200 Mock.t
                MockChart.many_releases MockChart.props MockChart.all_off MockChart.before)
      as (_ & _ & Hused).
    rewrite Hused.
    + reflexivity.
    + intros Hempty. apply (f_equal (λ m : gmap string bool, m !! "count()")) in Hempty.
      discriminate Hempty.
Defined.

Lemma yAxisSeriesName_is_bounded_witness :
  yAxisSeriesName (λ _, false) (λ s, s) (replicate 40 233%N) = replicate 40 233%N
  ∧ yAxisSeriesName (λ _, false) (λ s, s) (replicate 70 233%N)
    = replicate 60 233%N ++ [46; 46; 46]%N.
Proof.
  split.
  - apply (yAxisSeriesName_is_bounded (λ _, false) (λ s, s) (replicate 40 233%N)).
    + reflexivity.
    + simpl. lia.
  - apply (yAxisSeriesName_is_bounded (λ _, false) (λ s, s) (replicate 70 233%N)).
    + reflexivity.
    + simpl. lia.
Defined.

End EventsChartFacts.

Module CreateSavedSearchModalFacts.
Import CreateSavedSearchModal.

Lemma find_sort_present l s : s ∈ l → find_sort l (Some s) = Some s.
Proof.
  unfold find_sort. induction l as [|x l IH]; [by intros ?%elem_of_nil|].
  intros Hin. simpl. case_bool_decide as Hx; [congruence|].
  apply IH. apply elem_of_cons in Hin as [->|?]; [done|done].
Qed.

Lemma find_sort_absent l sort' : (∀ s, sort' = Some s → s ∉ l) → find_sort l sort' = None.
Proof.
  unfold find_sort. induction l as [|x l IH]; [done|].
  intros Habs. simpl. case_bool_decide as Hx.
  - exfalso. apply (Habs x); [done|left].
  - apply IH. intros s Hs Hin. apply (Habs s Hs). by right.
Qed.

(** The options offered: the five defaults, and the trend sort for
    organizations with the feature. *)
Lemma sortOptions_spec options organization s :
  s ∈ sortOptions options organization ↔
  s ∈ [DATE options; NEW options; FREQ options; PRIORITY options; USER options] ∨
  (s = TREND options ∧
   ∃ fs, organization ≫= features = Some fs ∧ "issue-list-trend-sort" ∈ fs).
Proof.
  unfold sortOptions, DEFAULT_SORT_OPTIONS.
  destruct (organization ≫= features) as [fs|]; simpl.
  - case_bool_decide as Hf.
    + rewrite !elem_of_cons, elem_of_nil. naive_solver.
    + split; [by left|]. intros [?|(_ & fs' & ? & ?)]; [done|]. by simplify_eq.
  - split; [by left|]. by intros [?|(_ & fs' & ? & ?)].
Qed.

Lemma validateSortOption_offered options organization s :
  s ∈ sortOptions options organization → s ≠ "" →
  validateSortOption options organization (Some s) = s.
Proof.
  intros Hin Hne. unfold validateSortOption. rewrite find_sort_present by done.
  simpl. by rewrite (proj2 (String.eqb_neq s "")).
Qed.

Lemma validateSortOption_other options organization sort' :
  (∀ s, sort' = Some s → s ∉ sortOptions options organization) →
  validateSortOption options organization sort' = DATE options.
Proof.
  intros Habs. unfold validateSortOption. by rewrite find_sort_absent.
Qed.

Lemma submitted_sort_handleSubmit options t organization data outcome st :
  submitted_sort (handleSubmit options t organization data outcome st).1 =
  Some (validateSortOption options (Some organization) (sort data)).
Proof. unfold handleSubmit. by destruct outcome. Qed.

(** Called with any data, [handleSubmit] sends the sort of the data
    when that value is one of the options the modal offers and is not
    the empty string, and IssueSortOptions.DATE otherwise. *)
Lemma sort_sent_after_validation options t organization data outcome st :
  let sent := submitted_sort (handleSubmit options t organization data outcome st).1 in
  let offered s :=
    s ∈ [DATE options; NEW options; FREQ options; PRIORITY options; USER options] ∨
    (s = TREND options ∧
     ∃ fs, features organization = Some fs ∧ "issue-list-trend-sort" ∈ fs) in
  (∀ s, sort data = Some s → offered s → s ≠ "" → sent = Some s) ∧
  ((∀ s, sort data = Some s → ¬ offered s) → sent = Some (DATE options)).
Proof.
  intros sent offered. unfold sent. rewrite submitted_sort_handleSubmit. split.
  - intros s -> Hoff Hne. f_equal. apply validateSortOption_offered; [|done].
    by apply sortOptions_spec.
  - intros Habs. f_equal. apply validateSortOption_other.
    intros s Hs Hin. apply (Habs s Hs). by apply sortOptions_spec in Hin.
Qed.

(** *** Further properties of the sort validation *)

Lemma find_sort_Some l sort' found :
  find_sort l sort' = Some found → sort' = Some found ∧ found ∈ l.
Proof.
  unfold find_sort. intros H. apply find_some in H as [Hin Heq].
  apply bool_decide_eq_true in Heq. split; [done|]. by apply list_elem_of_In.
Qed.

Lemma DATE_offered options organization : DATE options ∈ sortOptions options organization.
Proof. apply sortOptions_spec. left. left. Qed.

(** The two ways [validateSortOption] can return. *)
Lemma validateSortOption_cases options organization sort' :
  validateSortOption options organization sort' = DATE options ∨
  ∃ s, sort' = Some s ∧ s ∈ sortOptions options organization ∧ s ≠ "" ∧
       validateSortOption options organization sort' = s.
Proof.
  unfold validateSortOption.
  destruct (find_sort (sortOptions options organization) sort') as [found|] eqn:Hfind;
    [|by left].
  apply find_sort_Some in Hfind as [-> Hin]. simpl.
  destruct (String.eqb_spec found "") as [->|Hne]; simpl; [by left|].
  right. by exists found.
Qed.

Lemma validateSortOption_DATE options organization :
  validateSortOption options organization (Some (DATE options)) = DATE options.
Proof.
  destruct (validateSortOption_cases options organization (Some (DATE options)))
    as [?|(s & [= <-] & _ & _ & ?)]; done.
Qed.

(** *** The sort the form submits *)

Lemma selected_sorts_snoc edits e :
  selected_sorts (edits ++ [e]) =
  selected_sorts edits ++ match e with SelectSort value => [value] | _ => [] end.
Proof. unfold selected_sorts. rewrite omap_app. by destruct e. Qed.

(** The sort the form holds: the value picked last, or the one the form
    was opened with. *)
Lemma form_data_sort options organization query' sort' edits :
  sort (form_data options organization query' sort' edits) =
  Some (default (validateSortOption options (Some organization) sort')
          (last (selected_sorts edits))).
Proof.
  unfold form_data. induction edits as [|e edits IH] using rev_ind; [done|].
  rewrite foldl_app, selected_sorts_snoc. simpl.
  destruct e as [value|value|value]; simpl; rewrite ?app_nil_r; [done..|].
  by rewrite last_snoc.
Qed.

Lemma selected_sorts_selectable options organization edits value :
  Forall (selectable options organization) edits →
  value ∈ selected_sorts edits →
  value ∈ sortOptions options (Some organization).
Proof.
  intros Hedits. unfold selected_sorts. rewrite list_elem_of_omap.
  intros (e & Hin & He). eapply Forall_forall in Hedits; [|exact Hin].
  destruct e; simplify_eq. exact Hedits.
Qed.



(** X14. Whatever sort the form data carries, the sort sent to
    createSavedSearch is one of the options the modal offers for the
    organization. *)
Theorem submitted_sort_is_offered options t organization data outcome st :
  ∃ sent,
    submitted_sort (handleSubmit options t organization data outcome st).1 = Some sent ∧
    sent ∈ sortOptions options (Some organization).
Proof.
  rewrite submitted_sort_handleSubmit. eexists. split; [done|].
  destruct (validateSortOption_cases options (Some organization) (sort data))
    as [->|(s & _ & Hin & _ & ->)]; [apply DATE_offered|done].
Qed.

(** X15. Validation is idempotent, so the sort the form is initialised
    with is the sort that is sent when the user submits without touching
    the sort field. *)
Theorem initial_sort_is_sent_unchanged options t organization query' sort' name' outcome st :
  validateSortOption options (Some organization)
    (Some (validateSortOption options (Some organization) sort')) =
  validateSortOption options (Some organization) sort'
  ∧
  let shown := initialData options organization query' sort' in
  submitted_sort
    (handleSubmit options t organization
       {| name := name'; query := query shown; sort := sort shown |} outcome st).1 =
  sort shown.
Proof.
  assert (validateSortOption options (Some organization)
            (Some (validateSortOption options (Some organization) sort')) =
          validateSortOption options (Some organization) sort') as Hidem.
  { destruct (validateSortOption_cases options (Some organization) sort')
      as [->|(s & _ & Hin & Hne & ->)].
    - apply validateSortOption_DATE.
    - by apply validateSortOption_offered. }
  split; [done|]. simpl. rewrite submitted_sort_handleSubmit. simpl. by rewrite Hidem.
Qed.

End CreateSavedSearchModalFacts.

Module DebugFileHttpFacts.
Import DebugFileHttp.

(** The 'Save changes' button of any render. *)
Lemma render_disabled props f :
  disabled (render props f).1 =
  isFormInvalid (data (render props f).1)
  || bool_decide (ref (data (render props f).1) = ref (initialData' (render props f).1)).
Proof. reflexivity. Qed.

(** When the modal opens the state is the initial object itself. *)
Lemma first_render_disabled props : disabled (render props mount).1 = true.
Proof.
  change (disabled (render props mount).1)
    with (isFormInvalid (data (render props mount).1) || true).
  apply orb_true_r.
Qed.

(** References handed out so far are below [allocated]. *)
Lemma act_fresh props a rf :
  ref (data (act props a rf).1) < ref (initialData' (act props a rf).1).
Proof. unfold act. simpl. lia. Qed.

(** After any edit the button only depends on the form being valid. *)
Lemma edited_disabled props a rf :
  disabled (act props a rf).1 = isFormInvalid (data (act props a rf).1).
Proof.
  rewrite (surjective_pairing (act props a rf)) at 1. unfold act at 1.
  pose proof (act_fresh props a rf) as Hlt. unfold act in *. simpl in *.
  unfold formUnchanged, strict_equal. simpl.
  rewrite bool_decide_eq_false_2 by lia. apply orb_false_r.
Qed.

(** A render that follows no edit at all (the parent re-renders the
    modal) compares the untouched state with a new literal as well. *)
Lemma rerender_disabled props :
  let opened := render props mount in
  let again := render props opened.2 in
  fields (data again.1) = fields (initialData' again.1) ∧
  disabled again.1 = isFormInvalid (data again.1).
Proof. split; [reflexivity|]. apply orb_false_r. Qed.

(** What is submitted as password. *)
Lemma handleSubmit_password id d :
  SubmitData.password (handleSubmit id d) =
  match Data.password (fields d) with
  | None => Some (HiddenSecret true)
  | Some "" => None
  | Some entered => Some (Entered entered)
  end.
Proof.
  unfold handleSubmit. simpl. destruct (Data.password (fields d)) as [[|a entered]|]; done.
Qed.

(** C5. 'Save changes' is meant to be disabled while the form is invalid
    or its data is unchanged from the initial values.  The code misses the
    second case once the form has been edited: after changing the name of
    an existing repository and typing the old name again, the form is
    valid, every field equals its initial value, and the button is
    enabled. *)
Theorem save_enabled_after_edit_and_revert :
  let shown := (session example_props [ChangeName "Symbolsx"; ChangeName "Symbols"]).1 in
  fields (data shown) = fields (initialData' shown) ∧
  isFormInvalid (data shown) = false ∧
  disabled shown = false.
Proof. vm_compute. done. Qed.

(** *** Further properties of the form *)

Lemma session_snoc props actions a :
  session props (actions ++ [a]) = act props a (session props actions).
Proof. unfold session. by rewrite foldl_app. Qed.

(** The form data shown after a session is the initial data with the
    edits applied in order. *)
Lemma session_fields props actions :
  fields (data (session props actions).1) = foldl spread (initial_fields props) actions.
Proof.
  induction actions as [|a actions IH] using rev_ind; [done|].
  rewrite session_snoc, foldl_app. simpl. by rewrite IH.
Qed.

Lemma session_is_a_render props actions :
  ∃ f, session props actions = render props f.
Proof.
  destruct actions as [|a actions _] using rev_ind; [by exists mount|].
  rewrite session_snoc. by eexists.
Qed.

Lemma invalid_is_disabled props actions :
  isFormInvalid (data (session props actions).1) = true →
  disabled (session props actions).1 = true.
Proof.
  destruct (session_is_a_render props actions) as [f ->]. simpl. by intros ->.
Qed.

Lemma spread_password_other d a :
  isPasswordAction a = false → Data.password (spread d a) = Data.password d.
Proof. by destruct a. Qed.

Lemma foldl_spread_password d actions :
  Forall (λ a, isPasswordAction a = false) actions →
  Data.password (foldl spread d actions) = Data.password d.
Proof.
  revert d. induction actions as [|a actions IH]; intros d Hall; [done|].
  apply Forall_cons in Hall as [Ha Hall]. simpl. rewrite IH by done.
  by apply spread_password_other.
Qed.

Lemma foldl_spread_name d actions :
  Data.name (foldl spread d actions) = Data.name d ∨
  ∃ v, ChangeName v ∈ actions ∧ Data.name (foldl spread d actions) = Some v.
Proof.
  revert d. induction actions as [|a actions IH]; intros d; [by left|].
  simpl. destruct (IH (spread d a)) as [->|(v & Hin & ->)].
  - destruct a; try (by left). right. eexists. split; [left|done].
  - right. exists v. split; [by right|done].
Qed.

Lemma foldl_spread_url d actions :
  Data.url (foldl spread d actions) = Data.url d ∨
  ∃ v, ChangeUrl v ∈ actions ∧ Data.url (foldl spread d actions) = Some v.
Proof.
  revert d. induction actions as [|a actions IH]; intros d; [by left|].
  simpl. destruct (IH (spread d a)) as [->|(v & Hin & ->)].
  - destruct a; try (by left). right. eexists. split; [left|done].
  - right. exists v. split; [by right|done].
Qed.

(** X16. When a repository with a stored password is edited and the user
    neither types in the password field nor clears it, the submitted
    password is {'hidden-secret': true}, whatever else was edited. *)
Theorem stored_password_is_kept props init hidden actions id :
  initialData props = Some init →
  InitialData.password init = Some hidden →
  Forall (λ a, isPasswordAction a = false) actions →
  SubmitData.password (handleSubmit id (data (session props actions).1)) =
  Some (HiddenSecret true).
Proof.
  intros Hinit Hpw Hall. rewrite handleSubmit_password, session_fields.
  rewrite foldl_spread_password by done. simpl. by rewrite Hinit; simpl; rewrite Hpw.
Qed.

(** X17. While a repository is being added, 'Save changes' stays disabled
    as long as the user has not typed a non-empty name, and as long as
    the user has not typed a non-empty url. *)
Theorem new_repository_needs_name_and_url props actions :
  initialData props = None →
  (∀ v, ChangeName v ∈ actions → v = "") ∨ (∀ v, ChangeUrl v ∈ actions → v = "") →
  disabled (session props actions).1 = true.
Proof.
  intros Hnew Hmissing. apply invalid_is_disabled. unfold isFormInvalid.
  rewrite session_fields. apply orb_true_iff. destruct Hmissing as [Hname|Hurl].
  - left. destruct (foldl_spread_name (initial_fields props) actions) as [->|(v & Hin & ->)].
    + simpl. by rewrite Hnew.
    + by rewrite (Hname v Hin).
  - right. destruct (foldl_spread_url (initial_fields props) actions) as [->|(v & Hin & ->)].
    + simpl. by rewrite Hnew.
    + by rewrite (Hurl v Hin).
Qed.

(** X18. The last action on the password field decides what is
    submitted.  After the clear button the password is left out of the
    submitted data and the clear button is no longer rendered; after
    typing a non-empty password that password is submitted and the clear
    button is rendered. *)
Theorem last_password_action_is_submitted props before after id :
  Forall (λ a, isPasswordAction a = false) after →
  (let shown := (session props (before ++ ClearPassword :: after)).1 in
   SubmitData.password (handleSubmit id (data shown)) = None ∧
   showClearPassword (data shown) = false) ∧
  (∀ entered, entered ≠ "" →
     let shown := (session props (before ++ ChangePassword entered :: after)).1 in
     SubmitData.password (handleSubmit id (data shown)) = Some (Entered entered) ∧
     showClearPassword (data shown) = true).
Proof.
  intros Hall. split.
  - cbv zeta. unfold showClearPassword. rewrite handleSubmit_password, session_fields.
    rewrite foldl_app. simpl. rewrite foldl_spread_password by done. done.
  - intros entered Hne. cbv zeta. unfold showClearPassword.
    rewrite handleSubmit_password, session_fields.
    rewrite foldl_app. simpl. rewrite foldl_spread_password by done. simpl.
    destruct entered as [|ch rest]; [done|]. done.
Qed.

Lemma stored_password_is_kept_witness :
  SubmitData.password
    (handleSubmit "id-1"
       (data (session example_props [ChangeName "Symbols 2"; ChangeUsername "root"]).1)) =
  Some (HiddenSecret true).
Proof.
  eapply (stored_password_is_kept example_props _ true).
  - reflexivity.
  - reflexivity.
  - repeat constructor.
Defined.

Lemma new_repository_needs_name_and_url_witness :
  disabled (session new_repository
              [ChangeUrl "https://symbols.example.com/"; ChangeUsername "admin"]).1 = true.
Proof.
  apply new_repository_needs_name_and_url.
  - reflexivity.
  - left. intros v Hin.
    apply elem_of_cons in Hin as [Hin|Hin]; [discriminate Hin|].
    apply list_elem_of_singleton in Hin. discriminate Hin.
Defined.

Lemma last_password_action_is_submitted_witness :
  SubmitData.password
    (handleSubmit "id-1"
       (data (session example_props [ChangePassword "hunter2"; ClearPassword;
                                     ChangeName "Symbols 2"]).1)) = None.
Proof.
  apply (last_password_action_is_submitted example_props [ChangePassword "hunter2"]
           [ChangeName "Symbols 2"] "id-1").
  repeat constructor.
Defined.

End DebugFileHttpFacts.

Module GlobalSelectionHeaderFacts.
Import GlobalSelectionHeader.

(** The wrapped function on its own. *)
Lemma searchDispatcher_fn_spec q st :
  searchDispatcher_fn q {| append := false |} st =
  ((q, {| append := bool_decide (q = searchQuery st) |}),
   {| projects := projects st; environments := environments st; searchQuery := q |}).
Proof.
  unfold searchDispatcher_fn. destruct (String.eqb_spec (searchQuery st) q) as [->|Hne].
  - by rewrite bool_decide_eq_true_2.
  - by rewrite bool_decide_eq_false_2.
Qed.

Lemma follows_snoc stored l s :
  follows stored (l ++ [s]) ↔
  follows stored l ∧ append (options s) = bool_decide (query s = last_query stored l).
Proof.
  revert stored. induction l as [|x l IH]; intros stored; simpl.
  - naive_solver.
  - rewrite IH. unfold last_query. simpl. naive_solver.
Qed.

Lemma last_query_snoc stored l s : last_query stored (l ++ [s]) = query s.
Proof. unfold last_query. by rewrite foldl_app. Qed.

Lemma Inv_mount : Inv 0 [] mount.
Proof. split; simpl; try done; constructor. Qed.

Lemma Inv_later clock now processed c :
  Inv clock processed c → clock ≤ now → Inv now processed c.
Proof.
  intros [Hap Hfo Hst Hpa Htr Hti] Hle. split; try done.
  - eapply Forall_impl; [exact Hpa|]. intros s Hs. simpl in *. lia.
  - intros deadline q o Ht. destruct (Hti _ _ _ Ht) as (? & ? & t & ? & ? & ?).
    split; [done|]. split; [done|]. exists t. split; [done|]. split; [lia|done].
Qed.

Lemma Inv_expire clock now processed c deadline q o :
  Inv clock processed c → clock ≤ now →
  timer c = Some (deadline, (q, o)) → deadline ≤ now →
  Inv now processed (expire c).
Proof.
  intros HI Hle Ht Hdl. destruct (Inv_later _ _ _ _ HI Hle) as [Hap Hfo Hst Hpa Htr Hti].
  destruct (Hti _ _ _ Ht) as (-> & Hgap & t & -> & ? & Hin).
  unfold expire. rewrite Ht, searchDispatcher_fn_spec. split; simpl.
  - apply StronglySorted_app_2; [|done|repeat constructor].
    intros s1 s2 Hs1 ->%list_elem_of_singleton. unfold apart. simpl.
    by eapply Forall_forall in Hgap.
  - apply follows_snoc. split; [done|]. simpl. by rewrite Hst.
  - by rewrite last_query_snoc.
  - apply Forall_app. split; [done|]. by repeat constructor.
  - apply Forall_app. split; [done|]. repeat constructor. simpl. by exists t.
  - done.
Qed.

Lemma Inv_advance clock now processed c :
  Inv clock processed c → clock ≤ now → Inv now processed (advance now c).
Proof.
  intros HI Hle. unfold advance.
  destruct (timer c) as [[deadline [q o]]|] eqn:Ht; [|by eapply Inv_later].
  case_bool_decide; [by eapply Inv_expire|by eapply Inv_later].
Qed.

Lemma Inv_onFilterChange clock now value processed c :
  Inv clock processed c → clock ≤ now →
  Inv now (processed ++ [(now, value)]) (onFilterChange now value c).
Proof.
  intros HI Hle. destruct (Inv_advance _ _ _ _ HI Hle) as [Hap Hfo Hst Hpa Htr Hti].
  unfold onFilterChange. split; simpl; try done.
  - eapply Forall_impl; [exact Htr|]. simpl. intros s (t & ? & ?).
    exists t. split; [done|]. apply elem_of_app. by left.
  - intros deadline q o [= <- <- <-]. split; [done|]. split.
    + eapply Forall_impl; [exact Hpa|]. intros s Hs. simpl in *. lia.
    + exists now. split; [done|]. split; [done|].
      apply elem_of_app. right. by apply list_elem_of_singleton.
Qed.

Lemma Inv_foldl events clock processed c :
  Inv clock processed c →
  StronglySorted le (clock :: events.*1) →
  ∃ clock', clock ≤ clock' ∧ (∀ final, StronglySorted le (events.*1 ++ [final]) →
                                        clock ≤ final → clock' ≤ final) ∧
    Inv clock' (processed ++ events) (foldl (λ c e, onFilterChange e.1 e.2 c) c events).
Proof.
  revert clock processed c. induction events as [|[now value] events IH];
    intros clock processed c HI Hsorted; simpl.
  - exists clock. rewrite app_nil_r. done.
  - apply StronglySorted_cons in Hsorted as [Hall Hsorted]. simpl in *.
    apply Forall_cons in Hall as [Hnow Hall].
    destruct (IH now (processed ++ [(now, value)]) (onFilterChange now value c))
      as (clock' & Hle & Hfinal & HI').
    { by apply Inv_onFilterChange with clock. }
    { done. }
    exists clock'. split; [lia|]. split.
    + intros final Hs _. change (StronglySorted le (now :: (events.*1 ++ [final]))) in Hs.
      apply StronglySorted_cons in Hs as [Hs1 Hs2]. apply Hfinal; [exact Hs2|].
      apply Forall_app in Hs1 as [_ Hs1]. exact (Forall_inv Hs1).
    + by rewrite <- app_assoc in HI'.
Qed.

(** C6. Filter changes arriving at non-decreasing times [events], observed
    at time [final]: any two dispatched searches are at least 200 ms
    apart, each is made 200 ms after a filter change with the same query
    text, each is dispatched with append true exactly when its query
    equals the searchQuery stored at that moment (and with append false
    otherwise), and the stored searchQuery is then the dispatched query. *)
Theorem search_is_debounced events final :
  StronglySorted le (events.*1 ++ [final]) →
  let c := run events final in
  StronglySorted (λ s1 s2, time s1 + 200 ≤ time s2) (searches c) ∧
  Forall (λ s, ∃ t, time s = t + 200 ∧ (t, query s) ∈ events) (searches c) ∧
  follows "" (searches c) ∧
  searchQuery (state c) = last_query "" (searches c).
Proof.
  intros Hsorted c.
  destruct (Inv_foldl events 0 [] mount Inv_mount) as (clock & _ & Hfinal & HI).
  { apply StronglySorted_cons. split; [apply Forall_forall; intros; lia|].
    by apply StronglySorted_app in Hsorted as (_ & ? & _). }
  assert (clock ≤ final) as Hle by (apply Hfinal; [done|lia]).
  by destruct (Inv_advance _ _ _ _ HI Hle) as [Hap Hfo Hst Hpa Htr Hti].
Qed.

(** The user types "s", "se", deletes the "e", and later triggers the
    same filter again. *)
Example typed_and_deleted :
  searches (run [(0, "s"); (50, "se"); (100, "s"); (400, "s")] 1000) =
  [ {| time := 300; query := "s"; options := {| append := false |} |};
    {| time := 600; query := "s"; options := {| append := true |} |} ].
Proof. reflexivity. Qed.

Lemma search_is_debounced_witness :
  let c := run [(0, "s"); (50, "se"); (100, "s"); (400, "s")] 1000 in
  StronglySorted (λ s1 s2, time s1 + 200 ≤ time s2) (searches c) ∧
  Forall (λ s, ∃ t, time s = t + 200 ∧
                    (t, query s) ∈ [(0, "s"); (50, "se"); (100, "s"); (400, "s")])
         (searches c) ∧
  follows "" (searches c) ∧
  searchQuery (state c) = last_query "" (searches c).
Proof.
  apply (search_is_debounced [(0, "s"); (50, "se"); (100, "s"); (400, "s")] 1000).
  simpl. repeat (constructor; [|repeat (constructor; [lia|])]); constructor.
Defined.

(** *** What is searched in the end *)

Lemma run_snoc events now value final :
  run (events ++ [(now, value)]) final =
  advance final (onFilterChange now value
                   (foldl (λ c e, onFilterChange e.1 e.2 c) mount events)).
Proof. unfold run. by rewrite foldl_app. Qed.

(** Once a filter change has been left alone for [wait] ms, it has been
    dispatched. *)
Lemma advance_after_change c now value final :
  now + wait ≤ final →
  advance final (onFilterChange now value c) =
  {| state := {| projects := projects (state (advance now c));
                 environments := environments (state (advance now c));
                 searchQuery := value |};
     timer := None;
     searches :=
       searches (advance now c) ++
       [ {| time := now + wait; query := value;
            options :=
              {| append := bool_decide (value = searchQuery (state (advance now c))) |} |} ] |}.
Proof.
  intros Hfinal. unfold advance at 1. cbn [timer onFilterChange].
  rewrite bool_decide_eq_true_2 by done.
  unfold expire. cbn [timer onFilterChange]. by rewrite searchDispatcher_fn_spec.
Qed.

(** X26. The filter text typed last is always searched: once 200 ms have
    passed after the last filter change, the last call of onSearch was
    made 200 ms after that change with its text, nothing is pending any
    more, and the stored searchQuery is that text. *)
Theorem last_filter_change_is_searched events now value final :
  now + 200 ≤ final →
  let c := run (events ++ [(now, value)]) final in
  (∃ o, last (searches c) = Some {| time := now + 200; query := value; options := o |}) ∧
  timer c = None ∧
  searchQuery (state c) = value.
Proof.
  intros Hfinal c. unfold c. rewrite run_snoc, advance_after_change by done. simpl.
  split; [|done]. eexists. by rewrite last_snoc.
Qed.

Lemma burst_foldl rest c previous value :
  timer c = Some (previous + wait, (value, {| append := false |})) →
  burst previous rest →
  let c' := foldl (λ c e, onFilterChange e.1 e.2 c) c rest in
  searches c' = searches c ∧ state c' = state c ∧
  timer c' = Some (default previous (fst <$> last rest) + wait,
                   (default value (snd <$> last rest), {| append := false |})).
Proof.
  revert c previous value. induction rest as [|[now v] rest IH]; intros c previous value Ht Hb.
  - by simpl.
  - destruct Hb as (Hle & Hlt & Hb). simpl in Hle, Hlt.
    assert (advance now c = c) as Hadv.
    { unfold advance. rewrite Ht. by rewrite bool_decide_eq_false_2 by lia. }
    destruct (IH (onFilterChange now v c) now v) as (Hs & Hst & Hti).
    + done.
    + done.
    + cbn [foldl fst snd]. rewrite Hs, Hst, Hti.
      unfold onFilterChange. rewrite Hadv. simpl.
      split; [done|]. split; [done|]. by destruct rest as [|? ?] using rev_ind;
        [|rewrite !last_cons, !last_snoc].
Qed.

(** X27. A burst of filter changes, each less than 200 ms after the one
    before, leads to a single search: 200 ms after the last change, with
    the text of the last change, and with append true only if that text
    is the empty query the header starts with. *)
Theorem burst_is_searched_once now value rest final :
  burst now rest →
  default now (fst <$> last rest) + 200 ≤ final →
  searches (run ((now, value) :: rest) final) =
  [ {| time := default now (fst <$> last rest) + 200;
       query := default value (snd <$> last rest);
       options := {| append := bool_decide (default value (snd <$> last rest) = "") |} |} ].
Proof.
  intros Hb Hfinal. unfold run. cbn [foldl fst snd].
  destruct (burst_foldl rest (onFilterChange now value mount) now value eq_refl Hb)
    as (Hs & Hst & Hti).
  unfold advance. rewrite Hti. simpl.
  rewrite bool_decide_eq_true_2 by (unfold wait; simpl; lia).
  unfold expire. rewrite Hti, searchDispatcher_fn_spec, Hs, Hst. done.
Qed.

Lemma last_filter_change_is_searched_witness :
  searchQuery (state (run ([(0, "s"); (50, "se")] ++ [(100, "sen")]) 300)) = "sen".
Proof.
  apply (last_filter_change_is_searched [(0, "s"); (50, "se")] 100 "sen" 300). lia.
Defined.

Lemma burst_is_searched_once_witness :
  searches (run [(0, "s"); (50, "se"); (100, "sen")] 300) =
  [ {| time := 300; query := "sen"; options := {| append := false |} |} ].
Proof.
  apply (burst_is_searched_once 0 "s" [(50, "se"); (100, "sen")] 300).
  - simpl. unfold wait. lia.
  - simpl. lia.
Defined.

(** *** Scrolling and searching together *)

Lemma Consistent_mount : Consistent mount.
Proof. by split. Qed.

Lemma Consistent_expire c : Consistent c → Consistent (expire c).
Proof.
  intros HC. unfold expire.
  destruct (timer c) as [[deadline [q o]]|] eqn:Ht; [|exact HC].
  rewrite (consistent_timer c HC _ _ _ Ht), searchDispatcher_fn_spec. split; simpl.
  - apply follows_snoc. split; [apply HC|]. simpl. by rewrite (consistent_stored c HC).
  - by rewrite last_query_snoc.
  - done.
Qed.

Lemma Consistent_advance now c : Consistent c → Consistent (advance now c).
Proof.
  intros HC. unfold advance. destruct (timer c) as [[deadline ?]|]; [|done].
  case_bool_decide; [by apply Consistent_expire|done].
Qed.

Lemma Consistent_onFilterChange now value c :
  Consistent c → Consistent (onFilterChange now value c).
Proof.
  intros HC. destruct (Consistent_advance now c HC) as [Hfo Hst Hti].
  unfold onFilterChange. split; simpl; [done..|]. by intros deadline q o [= _ _ <-].
Qed.

Lemma Consistent_scrollFetch now c :
  Consistent c → Consistent (scrollFetch_fn now {| append := true |} c).
Proof.
  intros [Hfo Hst Hti]. unfold scrollFetch_fn. split; simpl.
  - apply follows_snoc. split; [done|]. simpl.
    by rewrite Hst, bool_decide_eq_true_2.
  - by rewrite last_query_snoc.
  - done.
Qed.

Lemma Consistent_header_step h ev :
  Consistent (instance h) → Consistent (instance (header_step h ev)).
Proof.
  intros HC. unfold header_step. destruct ev as [now [value|p e]]; simpl.
  - by apply Consistent_onFilterChange.
  - unfold onScroll. destruct (scrolledFarEnough p e); simpl.
    + destruct (lastScrollCall h) as [last|]; simpl.
      * case_bool_decide; [apply Consistent_scrollFetch|]; by apply Consistent_advance.
      * apply Consistent_scrollFetch. by apply Consistent_advance.
    + by apply Consistent_advance.
Qed.

(** X22. Whatever the user types and scrolls, and whenever: every call of
    onSearch has append true exactly when its query equals the query of
    the call before it (the empty query for the first call), and the
    stored searchQuery is the query of the last call.  In particular a
    scroll fetch always continues the search that was last dispatched. *)
Theorem searches_append_iff_query_repeats events final :
  let c := instance (header_run events final) in
  follows "" (searches c) ∧
  searchQuery (state c) = last_query "" (searches c).
Proof.
  simpl. assert (Consistent (instance (foldl header_step mountHeader events))) as HC.
  { generalize Consistent_mount. change mount with (instance mountHeader).
    generalize mountHeader. induction events as [|ev events IH]; intros h HC; [done|].
    simpl. apply IH. by apply Consistent_header_step. }
  by destruct (Consistent_advance final _ HC).
Qed.

Lemma ScrollInv_mount : ScrollInv 0 [] mountHeader.
Proof. split; simpl; try done; constructor. Qed.

Lemma ScrollInv_step clock processed h now p e :
  ScrollInv clock processed h → clock ≤ now →
  ScrollInv now (processed ++ [(now, Scroll p e)]) (header_step h (now, Scroll p e)).
Proof.
  intros [Hti Hst Hap Hfr Hla] Hle.
  assert (Forall (λ s, append (options s) = true ∧ query s = "" ∧
                       ∃ p0 e0, (time s, Scroll p0 e0) ∈ processed ++ [(now, Scroll p e)] ∧
                                scrolledFarEnough p0 e0 = true)
                 (searches (instance h))) as Hfr'.
  { eapply Forall_impl; [exact Hfr|]. intros s (? & ? & p0 & e0 & ? & ?).
    split; [done|]. split; [done|]. exists p0, e0. split; [|done].
    apply elem_of_app. by left. }
  unfold header_step, onScroll, advance. simpl. rewrite Hti.
  destruct (scrolledFarEnough p e) eqn:Hfar; simpl.
  - unfold scrollFetchDispatcher. simpl.
    destruct (lastScrollCall h) as [last|] eqn:Hlast.
    + destruct Hla as [Hlast_le Hpast]. case_bool_decide as Hquiet; split; simpl; try done.
      * apply StronglySorted_app_2; [|done|repeat constructor].
        intros s1 s2 Hs1 ->%list_elem_of_singleton. unfold apart. simpl.
        eapply Forall_forall in Hpast; [|done]. simpl in Hpast. lia.
      * apply Forall_app. split; [done|]. repeat constructor; simpl.
        -- by rewrite Hst.
        -- exists p, e. split; [|done]. apply elem_of_app. right. by left.
      * split; [done|]. apply Forall_app. split.
        -- eapply Forall_impl; [exact Hpast|]. intros s Hs. simpl in *. lia.
        -- by repeat constructor.
      * split; [done|]. eapply Forall_impl; [exact Hpast|]. intros s Hs. simpl in *. lia.
    + split; simpl; rewrite ?Hla; simpl; try done.
      * repeat constructor.
      * repeat constructor; simpl.
        -- by rewrite Hst.
        -- exists p, e. split; [|done]. apply elem_of_app. right. by left.
      * split; [done|]. by repeat constructor.
  - split; simpl; try done.
    destruct (lastScrollCall h) as [last|]; [|done].
    destruct Hla as [? ?]. split; [lia|done].
Qed.

Lemma ScrollInv_foldl events clock processed h :
  ScrollInv clock processed h →
  Forall (λ ev, isScroll ev = true) events →
  StronglySorted le (clock :: events.*1) →
  ∃ clock', ScrollInv clock' (processed ++ events) (foldl header_step h events).
Proof.
  revert clock processed h. induction events as [|[now ev] events IH];
    intros clock processed h HI Hscroll Hsorted.
  - exists clock. by rewrite app_nil_r.
  - apply Forall_cons in Hscroll as [Hev Hscroll].
    destruct ev as [value|p e]; [done|].
    apply StronglySorted_cons in Hsorted as [Hall Hsorted].
    apply Forall_cons in Hall as [Hnow Hall]. simpl in Hnow.
    destruct (IH now (processed ++ [(now, Scroll p e)])
                (header_step h (now, Scroll p e))) as [clock' HI'].
    + by apply ScrollInv_step with clock.
    + done.
    + done.
    + exists clock'. simpl. by rewrite <- app_assoc in HI'.
Qed.

(** The searches made so far are never taken back. *)
Lemma header_step_searches h ev :
  ∃ more, searches (instance (header_step h ev)) = searches (instance h) ++ more.
Proof.
  assert (∀ now c, ∃ more, searches (advance now c) = searches c ++ more) as Hadvance.
  { intros now c. unfold advance, expire.
    destruct (timer c) as [[deadline [q o]]|]; [|exists []; by rewrite app_nil_r].
    case_bool_decide; [|exists []; by rewrite app_nil_r].
    destruct (searchDispatcher_fn q o (state c)) as [[q' o'] st]. simpl. by eexists. }
  unfold header_step. destruct ev as [now [value|p e]]; simpl.
  - apply Hadvance.
  - unfold onScroll. destruct (Hadvance now (instance h)) as [more Hmore].
    destruct (scrolledFarEnough p e); simpl; [|by exists more].
    destruct (lastScrollCall h) as [last|]; simpl.
    + case_bool_decide; simpl; [|by exists more].
      rewrite Hmore, <- app_assoc. by eexists.
    + rewrite Hmore, <- app_assoc. by eexists.
Qed.

Lemma foldl_header_step_searches events h :
  ∃ more, searches (instance (foldl header_step h events)) = searches (instance h) ++ more.
Proof.
  revert h. induction events as [|ev events IH]; intros h.
  - exists []. by rewrite app_nil_r.
  - simpl. destruct (IH (header_step h ev)) as [more2 ->].
    destruct (header_step_searches h ev) as [more1 ->].
    rewrite <- app_assoc. by eexists.
Qed.

(** Scrolls that do not pass the test of onScroll leave a header that
    has nothing pending as it is. *)
Lemma failing_scrolls_do_nothing before h :
  timer (instance h) = None →
  Forall (λ ev, isScroll ev = true) before →
  Forall (λ ev, ∀ p e, ev.2 = Scroll p e → scrolledFarEnough p e = false) before →
  foldl header_step h before = h.
Proof.
  intros Htimer Hscroll Hfail. induction before as [|[now ev] before IH]; [done|].
  apply Forall_cons in Hscroll as [Hev Hscroll]. apply Forall_cons in Hfail as [Hnear Hfail].
  destruct ev as [value|p e]; [done|]. simpl.
  assert (header_step h (now, Scroll p e) = h) as ->; [|by apply IH].
  unfold header_step, onScroll, advance. simpl.
  rewrite (Hnear p e eq_refl), Htimer. by destruct h.
Qed.

(** X23. When the user only scrolls, at non-decreasing times: the first
    scroll that passes the test of onScroll fetches at once, however
    many scrolls that do not pass came before it; two scroll fetches are
    at least 200 ms apart; and each fetch asks for the stored (empty)
    query with append true at the time of a scroll that passed the
    test. *)
Theorem scroll_fetches_are_spaced events final :
  Forall (λ ev, isScroll ev = true) events →
  StronglySorted le (events.*1) →
  let c := instance (header_run events final) in
  StronglySorted (λ s1 s2, time s1 + 200 ≤ time s2) (searches c) ∧
  Forall (λ s, append (options s) = true ∧ query s = "" ∧
               ∃ p e, (time s, Scroll p e) ∈ events ∧ scrolledFarEnough p e = true)
         (searches c) ∧
  (∀ before now p e rest,
     events = before ++ (now, Scroll p e) :: rest →
     Forall (λ ev, ∀ p0 e0, ev.2 = Scroll p0 e0 → scrolledFarEnough p0 e0 = false) before →
     scrolledFarEnough p e = true →
     head (searches c) =
     Some {| time := now; query := ""; options := {| append := true |} |}).
Proof.
  intros Hscroll Hsorted c.
  destruct (ScrollInv_foldl events 0 [] mountHeader ScrollInv_mount Hscroll)
    as [clock [Hti Hst Hap Hfr Hla]].
  { apply StronglySorted_cons. split; [apply Forall_forall; intros; lia|done]. }
  assert (c = instance (foldl header_step mountHeader events)) as Hc.
  { unfold c, header_run, advance. simpl. by rewrite Hti. }
  rewrite Hc. split; [done|]. split; [done|].
  intros before now p e rest -> Hnear Hfar.
  apply Forall_app in Hscroll as [Hbefore _].
  rewrite foldl_app, (failing_scrolls_do_nothing before mountHeader eq_refl Hbefore Hnear).
  simpl.
  destruct (foldl_header_step_searches rest
              (header_step mountHeader (now, Scroll p e))) as [more ->].
  unfold header_step, onScroll. simpl. by rewrite Hfar.
Qed.

(** X24. Updating the projects clears the environments: the router is
    told to reset them, both pending selections are dropped, and an
    environment selection that was pending is never sent.  Updating
    without a pending project selection sends the empty list. *)
Theorem updating_projects_clears_environments resetParamsOnChange pendingEnvironments
    pendingProjects st :
  let '(calls, st') :=
    then_ (handleChangeEnvironments pendingEnvironments)
      (then_ (handleChangeProjects pendingProjects)
         (handleUpdateProjects resetParamsOnChange)) st in
  filter (λ call, isUpdateEnvironments call = true) calls = [] ∧
  UpdateProjects (default [] pendingProjects)
    {| save := true; resetParams := resetParamsOnChange; resetEnvironments := Some [] |}
    ∈ calls ∧
  projects st' = None ∧
  environments st' = None ∧
  searchQuery st' = searchQuery st ∧
  (∀ selection_projects, shownProjects selection_projects st' = selection_projects).
Proof.
  simpl. split; [done|]. split; [|done].
  right. right. left.
Qed.

Lemma scroll_fetches_are_spaced_witness :
  let near := {| clientHeight := 300; scrollHeight := 1000; scrollTop := 100 |} in
  let far := {| clientHeight := 300; scrollHeight := 1000; scrollTop := 500 |} in
  let more := {| fetching := false; hasMore := true |} in
  let events := [(0, Scroll more near); (20, Scroll more near); (50, Scroll more far);
                 (100, Scroll more far); (270, Scroll more far); (500, Scroll more far)] in
  searches (instance (header_run events 1000))
  = [ {| time := 50; query := ""; options := {| append := true |} |};
      {| time := 500; query := ""; options := {| append := true |} |} ]
  ∧ StronglySorted (λ s1 s2, time s1 + 200 ≤ time s2)
      (searches (instance (header_run events 1000)))
  ∧ head (searches (instance (header_run events 1000)))
    = Some {| time := 50; query := ""; options := {| append := true |} |}.
Proof.
  intros near far more events. split; [reflexivity|].
  destruct (scroll_fetches_are_spaced events 1000) as (Hspaced & _ & Hfirst).
  - repeat constructor.
  - simpl. repeat (constructor; [|repeat (constructor; [lia|])]); constructor.
  - split; [exact Hspaced|].
    apply (Hfirst [(0, Scroll more near); (20, Scroll more near)] 50 more far
             [(100, Scroll more far); (270, Scroll more far); (500, Scroll more far)]).
    + reflexivity.
    + repeat constructor; intros p0 e0 [= <- <-]; reflexivity.
    + reflexivity.
Defined.

End GlobalSelectionHeaderFacts.
